(** * turso-cli: the browser-delegated login handshake

    A shallow embedding of [internal/cmd/auth.go]: the [login], [logout]
    and [token] commands, the callback server's handler, the browser
    launcher and the version probe.

    The commands talk to collaborators that live outside the file
    (settings store, HTTP clients, the OS browser opener, [net.Listen],
    library functions of [net/url], [encoding/json], [text/template]).
    Their answers are collected in a [World]; each command is a function of
    the world that yields the list of effects it performs, in program
    order, together with its return value, or [Blocks] when the goroutine
    parks forever. The goroutines that meet at the callback channel (the
    handlers of the callback server and [login]) are interleaved by a
    transition system of their own. *)

From Stdlib Require Import Ascii String ZArith.
From stdpp Require Import base option list strings gmap pretty sorting.

Open Scope Z_scope.

(** ** Go values *)

(** An [error] value, identified with its message. *)
Inductive error := Err (msg : string).

Definition Error (e : error) : string := let 'Err m := e in m.

(** [fmt.Errorf("<prefix>%w", err)] *)
Definition Errorf (prefix : string) (err : error) : error :=
  Err (prefix +:+ Error err).

Definition LF : string := String "010"%char "".

(** [http.Response], as far as the code looks at it: [Body] is what
    [io.ReadAll(resp.Body)] yields. *)
Record Response := {
  StatusCode : Z;
  Status : string;
  Body : string + error
}.

Definition StatusOK : Z := 200.

(** [settings.Settings]: the handle [ReadSettings] returns. *)
Record Settings := { token : string }.

Definition GetToken (s : Settings) : string := token s.

(** ** net/url *)

(** [url.Values] is [map[string][]string]. *)
Definition Values_Get (v : gmap string (list string)) (key : string) : string :=
  match v !! key with
  | Some (x :: _) => x
  | _ => ""
  end.

Definition is_unreserved (c : ascii) : bool :=
  let n := Z.of_nat (nat_of_ascii c) in
  ((97 <=? n) && (n <=? 122)) || ((65 <=? n) && (n <=? 90)) ||
  ((48 <=? n) && (n <=? 57)) ||
  bool_decide (c ∈ ["-"; "_"; "."; "~"]%char).

Definition upperhex (n : nat) : ascii :=
  nth n (list_ascii_of_string "0123456789ABCDEF") "0"%char.

(** [url.QueryEscape] *)
Fixpoint QueryEscape (s : string) : string :=
  match s with
  | EmptyString => EmptyString
  | String c rest =>
      if is_unreserved c then String c (QueryEscape rest)
      else if bool_decide (c = " "%char) then String "+" (QueryEscape rest)
      else String "%" (String (upperhex (nat_of_ascii c / 16))
                         (String (upperhex (nat_of_ascii c mod 16))
                            (QueryEscape rest)))
  end.

Definition key_le (a b : string * list string) : Prop :=
  String.leb a.1 b.1 = true.

#[global] Instance key_le_dec : RelDecision key_le :=
  λ a b, decide (String.leb a.1 b.1 = true).

Definition join_amp (parts : list string) : string :=
  match parts with
  | [] => ""
  | p :: ps => foldl (λ acc x, acc +:+ "&" +:+ x) p ps
  end.

(** [url.Values.Encode]: [key=value] pairs, keys sorted, joined by [&]. *)
Definition Values_Encode (v : gmap string (list string)) : string :=
  join_amp
    (mbind (M := list)
       (λ kv : string * list string,
          (λ x, QueryEscape kv.1 +:+ "=" +:+ QueryEscape x) <$> kv.2)
       (merge_sort key_le (map_to_list v))).

(** [url.URL], as far as the code touches it: the code sets [RawQuery]
    and renders the URL; [Head] stands for scheme, authority and path as
    [String] renders them, [Tail] for the rendered fragment. *)
Record URL := { Head : string; RawQuery : string; Tail : string }.

(** [URL.String] *)
Definition URL_String (u : URL) : string :=
  Head u +:+ (if decide (RawQuery u = "") then "" else "?" +:+ RawQuery u)
         +:+ Tail u.

(** [strconv.Itoa] *)
Definition Itoa (n : Z) : string := pretty n.

(** ** The callback request and its handler *)

(** An incoming request, as far as the handler looks at it:
    [r.URL.Query()]. *)
Record Request := { Query : gmap string (list string) }.

(** What the handler writes back: [w.WriteHeader(200)] and the page
    rendered from the [username] parameter. *)
Record Reply := { code : Z; page_data : string }.

(** The function registered with [handler.HandleFunc("/", ...)]: the
    value it sends on [jwtCh], and its reply. *)
Definition handler (r : Request) : string * Reply :=
  let q := Query r in
  (Values_Get q "jwt", {| code := 200; page_data := Values_Get q "username" |}).

(** ** The world outside the file *)

Record World := {
  (** the package variable [version] *)
  version : string;
  (** [turso.Emph] *)
  Emph : string → string;
  (** [url.Parse] *)
  url_Parse : string → URL + error;
  (** [json.Unmarshal] into [struct { Version string `json:"latest"` }]:
      the decoded [Version] field *)
  json_Unmarshal : string → string + error;
  (** [settings.ReadSettings()] *)
  settings_ReadSettings : Settings + error;
  (** [settings.SetToken(tok)] *)
  settings_SetToken : string → option error;
  (** [createTursoClient().Get("/v2/validate/token", nil)] *)
  validate_token : Response + error;
  (** [createUnauthenticatedTursoClient().Get("/releases/latest", nil)] *)
  releases_latest : Response + error;
  (** [template.New("login.html").Parse(LOGIN_HTML)] *)
  template_Parse : option error;
  (** [net.Listen("tcp", ":0")], with the port of [listener.Addr()] *)
  net_Listen : Z + error;
  (** [getHost()] *)
  getHost : string;
  (** [browser.OpenURL(u)] *)
  browser_OpenURL : string → option error;
  (** the requests the callback server accepts between [Serve] and the
      closing of its listener; the first is the one whose send on
      [jwtCh] goes through first *)
  callback_hits : list Request
}.

(** ** Effects *)

Inductive Chan := jwtCh | versionChannel.

Inductive Event :=
| ReadSettings
| Get (authenticated : bool) (path : string)
| Stdout (text : string)
| ParseTemplate
| Listen
| Serve (port : Z)
| OpenURL (u : string)
| ChanSend (ch : Chan) (v : string)
| ChanRecv (ch : Chan) (v : string)
| SetToken (tok : string)
| Shutdown.

Inductive Outcome (A : Type) :=
| Returns (a : A)
| Blocks.
Arguments Returns {A} a.
Arguments Blocks {A}.

(** A computation: the effects performed, in order, and how it ends. *)
Definition Go (A : Type) : Type := list Event * Outcome A.

Definition Go_ret {A} (a : A) : Go A := ([], Returns a).

Definition Go_bind {A B} (k : A → Go B) (m : Go A) : Go B :=
  match m with
  | (t, Returns a) => let '(t', o) := k a in (t ++ t', o)
  | (t, Blocks) => (t, Blocks)
  end.

#[global] Instance Go_mret : MRet Go := @Go_ret.
#[global] Instance Go_mbind : MBind Go := @Go_bind.

Definition emit (e : Event) : Go unit := ([e], Returns tt).

Definition park {A} : Go A := ([], Blocks).

Definition trace {A} (m : Go A) : list Event := m.1.
Definition outcome {A} (m : Go A) : Outcome A := m.2.

(** [fmt.Println(s)] *)
Definition Println (s : string) : Go unit := emit (Stdout (s +:+ LF)).

(** [fmt.Printf] with the format already filled in *)
Definition Printf (s : string) : Go unit := emit (Stdout s).

(** ** The commands of auth.go *)

Definition isJwtTokenValid (w : World) (token : string) : Go bool :=
  if decide (String.length token = 0%nat) then mret false
  else
    emit (Get true "/v2/validate/token");;
    mret (match validate_token w with
          | inl resp => bool_decide (StatusCode resp = StatusOK)
          | inr _ => false
          end).

(** [tokenCmd.RunE] *)
Definition tokenCmd (w : World) : Go (option error) :=
  emit ReadSettings;;
  match settings_ReadSettings w with
  | inr err => mret (Some (Errorf "could not retrieve local config: " err))
  | inl settings =>
      let token := GetToken settings in
      valid ← isJwtTokenValid w token;
      if negb valid
      then mret (Some (Err "no user logged in. Run `turso auth login` to log in and get a token"))
      else Println token;; mret None
  end.

Definition fetchLatestVersion (w : World) : Go (string + error) :=
  emit (Get false "/releases/latest");;
  mret
    match releases_latest w with
    | inr err => inr err
    | inl resp =>
        if decide (StatusCode resp ≠ StatusOK)
        then inr (Err ("error getting latest release: " +:+ Status resp))
        else
          match Body resp with
          | inr err => inr err
          | inl body =>
              match json_Unmarshal w body with
              | inr err => inr err
              | inl Version =>
                  if decide (String.length Version = 0%nat)
                  then inr (Err "got empty version for latest release")
                  else inl Version
              end
          end
    end.

(** The goroutine [go func() { latestVersion, err := fetchLatestVersion() ... }()].
    It shares nothing with [login] but [versionChannel], which has room
    for its one send; the value it leaves there is returned.

    A trace lists the events of [login]'s own goroutine in program
    order. The two events of this goroutine, the request to
    [/releases/latest] and the send, are listed at the [go] statement:
    that is where they may first happen, and they may as well happen
    later, while [login] waits for the callback, writes the settings or
    shuts the server down. Their place among the later events of a trace
    is this convention, not an order the code fixes. *)
Definition versionProbe (w : World) : Go string :=
  r ← fetchLatestVersion w;
  match r with
  | inr _ => emit (ChanSend versionChannel (version w));; mret (version w)
  | inl latestVersion =>
      emit (ChanSend versionChannel latestVersion);; mret latestVersion
  end.

Definition beginAuth (w : World) (port : Z) : Go (option error) :=
  match url_Parse w (getHost w) with
  | inr err => mret (Some (Errorf "error parsing auth URL: " err))
  | inl authUrl =>
      let authUrl :=
        {| Head := Head authUrl;
           RawQuery :=
             Values_Encode {[ "port" := [Itoa port]; "redirect" := ["true"] ]};
           Tail := Tail authUrl |} in
      emit (OpenURL (URL_String authUrl));;
      match browser_OpenURL w (URL_String authUrl) with
      | Some _ =>
          Printf ("Please open the following URL to login: "
                  +:+ Emph w (URL_String authUrl) +:+ LF)
      | None => mret tt
      end;;
      mret None
  end.

(** The server value is the registered [handler]; what can fail is the
    parsing of the page template. *)
Definition createCallbackServer (w : World) : Go (option error) :=
  emit ParseTemplate;;
  mret match template_Parse w with
       | Some err => Some (Errorf "could not parse login callback template: " err)
       | None => None
       end.

Definition runServer (w : World) : Go (Z + error) :=
  emit Listen;;
  match net_Listen w with
  | inr err => mret (inr (Errorf "could not allocate port for http server: " err))
  | inl port => emit (Serve port);; mret (inl port)
  end.

(** [jwt := <-ch]: the first value a handler sent; with no request the
    receive never returns. *)
Definition recv_jwtCh (w : World) : Go string :=
  match callback_hits w with
  | [] => park
  | r :: _ => emit (ChanRecv jwtCh (handler r).1);; mret (handler r).1
  end.

(** [server.Shutdown(context.Background())]: closes the listener and
    waits, without a deadline, until no handler is running. A handler
    returns once its send on [jwtCh] went through; the channel buffers
    one value and [login] receives one, so the sends of two requests go
    through and a further one never does (see [step] and
    [Inv_finished] below). *)
Definition server_Shutdown (w : World) : Go unit :=
  emit Shutdown;;
  if decide (length (callback_hits w) ≤ 2)%nat then mret tt else park.

(** The three [fmt.Printf] of the block under
    [if version != latestVersion]. *)
Definition upgrade_notice (w : World) (latestVersion : string) : Go unit :=
  Printf (LF +:+ "Friendly reminder that there's a newer version of "
          +:+ Emph w "Turso CLI" +:+ " available." +:+ LF);;
  Printf ("You're currently using version " +:+ Emph w (version w)
          +:+ " while latest available version is " +:+ Emph w latestVersion
          +:+ "." +:+ LF);;
  Printf ("Please consider updating to get new features and more stable experience."
          +:+ LF +:+ LF).

Definition login (w : World) : Go (option error) :=
  emit ReadSettings;;
  match settings_ReadSettings w with
  | inr err => mret (Some (Errorf "could not retrieve local config: " err))
  | inl settings =>
      valid ← isJwtTokenValid w (GetToken settings);
      if valid : bool then
        Println "✔  Success! Existing JWT still valid";;
        mret None
      else
        Println "Waiting for authentication...";;
        err ← createCallbackServer w;
        match err with
        | Some err =>
            mret (Some (Errorf "internal error. Cannot create callback: " err))
        | None =>
            r ← runServer w;
            match r with
            | inr err =>
                mret (Some (Errorf "internal error. Cannot run authentication server: " err))
            | inl port =>
                err ← beginAuth w port;
                match err with
                | Some err =>
                    mret (Some (Errorf "internal error. Cannot initiate auth flow: " err))
                | None =>
                    sent ← versionProbe w;
                    jwt ← recv_jwtCh w;
                    emit (SetToken jwt);;
                    let err := settings_SetToken w jwt in
                    server_Shutdown w;;
                    match err with
                    | Some err =>
                        mret (Some (Errorf "error persisting token on local config: " err))
                    | None =>
                        emit (ChanRecv versionChannel sent);;
                        let latestVersion := sent in
                        Println "✔  Success!";;
                        (if decide (version w ≠ latestVersion)
                         then upgrade_notice w latestVersion
                         else mret tt);;
                        mret None
                    end
                end
            end
        end
  end.

Definition logout (w : World) : Go (option error) :=
  emit ReadSettings;;
  match settings_ReadSettings w with
  | inr err => mret (Some (Errorf "could not retrieve local config: " err))
  | inl settings =>
      let token := GetToken settings in
      (if decide (String.length token = 0%nat)
       then Println "No user logged in."
       else emit (SetToken "");; Println "Logged out.");;
      mret None
  end.

(** ** Sample worlds *)

Definition response (status : Z) (text body : string) : Response :=
  {| StatusCode := status; Status := text; Body := inl body |}.

(** The double quote character. *)
Definition quote : string := String "034"%char "".

(** A stand-in for [url.Parse] on plain strings: a string that starts
    with a colon is rejected with the error [url.Parse] gives it (the
    operation, the quoted string, missing protocol scheme); anything else
    is taken as scheme, authority and path. *)
Definition sample_Parse (s : string) : URL + error :=
  match s with
  | String ":" _ =>
      inr (Err ("parse " +:+ quote +:+ s +:+ quote
                +:+ ": missing protocol scheme"))
  | _ => inl {| Head := s; RawQuery := ""; Tail := "" |}
  end.

(** The JSON object with the one field [latest]. *)
Definition latest_body (v : string) : string :=
  "{" +:+ quote +:+ "latest" +:+ quote +:+ ":" +:+ quote +:+ v +:+ quote
  +:+ "}".

Fixpoint strip_prefix (p s : string) : option string :=
  match p, s with
  | EmptyString, _ => Some s
  | String a p, String b s => if decide (a = b) then strip_prefix p s else None
  | String _ _, EmptyString => None
  end.

(** The characters up to the closing quote of a JSON string without
    escapes, and what follows that quote. *)
Fixpoint string_body (s : string) : option (string * string) :=
  match s with
  | EmptyString => None
  | String c rest =>
      if decide (c = "034"%char) then Some (EmptyString, rest)
      else if decide (c = "092"%char) then None
      else
        match string_body rest with
        | Some (v, after) => Some (String c v, after)
        | None => None
        end
  end.

(** A stand-in for [json.Unmarshal] into the struct with the field
    [latest]. It decodes as Go does the bodies the sample worlds use: the
    empty body is an error, [{}] leaves [Version] empty, an object with
    the one string field [latest], written without white space and
    without escapes, gives that string; text that is not JSON is an
    error. Every other body is taken as malformed too, though Go accepts
    more JSON than this. *)
Definition sample_Unmarshal (body : string) : string + error :=
  if decide (body = "") then inr (Err "unexpected end of JSON input")
  else if decide (body = "{}") then inl ""
  else
    match strip_prefix ("{" +:+ quote +:+ "latest" +:+ quote +:+ ":" +:+ quote)
            body with
    | Some rest =>
        match string_body rest with
        | Some (v, "}") => inl v
        | _ => inr (Err "invalid character")
        end
    | None => inr (Err "invalid character")
    end.

Definition request (jwt username : list string) : Request :=
  {| Query := {[ "jwt" := jwt; "username" := username ]} |}.

Definition sample_world (stored : string) (validate : Response + error)
    (host : string) (open_err set_err : option error)
    (latest : Response + error) (hits : list Request) : World :=
  {| version := "v0.1.0";
     Emph := λ s, "*" +:+ s +:+ "*";
     url_Parse := sample_Parse;
     json_Unmarshal := sample_Unmarshal;
     settings_ReadSettings := inl {| token := stored |};
     settings_SetToken := λ _, set_err;
     validate_token := validate;
     releases_latest := latest;
     template_Parse := None;
     net_Listen := inl 41234;
     getHost := host;
     browser_OpenURL := λ _, open_err;
     callback_hits := hits |}.

Definition alice : Request := request ["abc123"] ["alice"].
Definition favicon : Request := {| Query := ∅ |}.
Definition empty_jwt : Request := request [""] ["alice"].

Definition api : string := "https://api.turso.example".

(** Fresh login, one callback, everything succeeds. *)
Definition w_fresh : World :=
  sample_world "" (inr (Err "unused")) api None None
    (inl (response 200 "200 OK" (latest_body "v0.2.0"))) [alice].

(** Stored token still valid. *)
Definition w_valid : World :=
  sample_world "old-token" (inl (response 200 "200 OK" "")) api None None
    (inl (response 200 "200 OK" (latest_body "v0.2.0"))) [alice].

(** The settings write fails. *)
Definition w_write_fails : World :=
  sample_world "old-token" (inl (response 401 "401 Unauthorized" "")) api None
    (Some (Err "disk full"))
    (inl (response 200 "200 OK" (latest_body "v0.1.0"))) [alice].

(** The configured host does not parse. *)
Definition w_bad_host : World :=
  sample_world "" (inr (Err "unused")) ":bad" None None
    (inl (response 200 "200 OK" (latest_body "v0.2.0"))) [alice].

(** No browser, and the release endpoint answers 503. *)
Definition w_headless : World :=
  sample_world "" (inr (Err "unused")) api (Some (Err "exec: no display"))
    None (inl (response 503 "503 Service Unavailable" "")) [empty_jwt].

(** ** The callback server and [login] as goroutines

    Between [runServer] and the return of [server.Shutdown] several
    goroutines run: the accept loop of [server.Serve], one goroutine per
    accepted request running [handler], and [login] itself. They meet at
    [jwtCh], made by [make(chan string, 1)]. The transition system below
    interleaves them. *)

Definition jwtCh_cap : nat := 1.

(** A handler goroutine: at [jwtCh <- q.Get("jwt")]; past its send, at
    [w.WriteHeader(200)] and [tmpl.Execute]; or returned. *)
Inductive Handler :=
| AtSend (r : Request)
| Replying (r : Request)
| Done (r : Request).

(** Where [login] stands. *)
Inductive Orch :=
| AwaitJwt                       (* at [jwt := <-ch] *)
| Persisting (jwt : string)      (* at [settings.SetToken(jwt)] *)
| ShuttingDown (jwt : string)    (* at [server.Shutdown(...)] *)
| Draining (jwt : string)        (* in [Shutdown]: listener closed, waiting for handlers *)
| Finished (jwt : string).       (* [Shutdown] returned *)

Record System := {
  chan_buf : list string;        (* buffer of [jwtCh], oldest value first *)
  incoming : list Request;       (* requests on their way to the listener *)
  listening : bool;
  handlers : list Handler;       (* one per accepted request *)
  orch : Orch;
  sent : list string;            (* history: sends that went through *)
  received : list string         (* history: values [login] received *)
}.

Inductive Action :=
| Accept
| HandlerSend (i : nat)
| HandlerReply (i : nat)
| Receive
| Persist
| CloseListener
| Drained.

Inductive StepResult :=
| Next (s : System)
| Disabled.

Definition is_done (h : Handler) : bool :=
  match h with Done _ => true | _ => false end.

(** The handler's send on [jwtCh] went through. *)
Definition past_send (h : Handler) : bool :=
  match h with AtSend _ => false | _ => true end.

Definition step (a : Action) (s : System) : StepResult :=
  match a with
  | Accept =>
      match listening s, incoming s with
      | true, r :: rest =>
          Next {| chan_buf := chan_buf s;
                  incoming := rest; listening := true;
                  handlers := handlers s ++ [AtSend r];
                  orch := orch s; sent := sent s; received := received s |}
      | _, _ => Disabled
      end
  | HandlerSend i =>
      match handlers s !! i with
      | Some (AtSend r) =>
          if decide (length (chan_buf s) < jwtCh_cap)%nat then
            Next {| chan_buf := chan_buf s ++ [(handler r).1];
                    incoming := incoming s; listening := listening s;
                    handlers := <[i := Replying r]> (handlers s);
                    orch := orch s;
                    sent := sent s ++ [(handler r).1];
                    received := received s |}
          else Disabled
      | _ => Disabled
      end
  | HandlerReply i =>
      match handlers s !! i with
      | Some (Replying r) =>
          Next {| chan_buf := chan_buf s;
                  incoming := incoming s; listening := listening s;
                  handlers := <[i := Done r]> (handlers s);
                  orch := orch s; sent := sent s; received := received s |}
      | _ => Disabled
      end
  | Receive =>
      match orch s, chan_buf s with
      | AwaitJwt, v :: rest =>
          Next {| chan_buf := rest;
                  incoming := incoming s; listening := listening s;
                  handlers := handlers s;
                  orch := Persisting v; sent := sent s;
                  received := received s ++ [v] |}
      | _, _ => Disabled
      end
  | Persist =>
      match orch s with
      | Persisting v =>
          Next {| chan_buf := chan_buf s;
                  incoming := incoming s; listening := listening s;
                  handlers := handlers s;
                  orch := ShuttingDown v; sent := sent s;
                  received := received s |}
      | _ => Disabled
      end
  | CloseListener =>
      match orch s with
      | ShuttingDown v =>
          Next {| chan_buf := chan_buf s;
                  incoming := incoming s; listening := false;
                  handlers := handlers s;
                  orch := Draining v; sent := sent s;
                  received := received s |}
      | _ => Disabled
      end
  | Drained =>
      match orch s with
      | Draining v =>
          if forallb is_done (handlers s) then
            Next {| chan_buf := chan_buf s;
                    incoming := incoming s; listening := listening s;
                    handlers := handlers s;
                    orch := Finished v; sent := sent s;
                    received := received s |}
          else Disabled
      | _ => Disabled
      end
  end.

Fixpoint run (acts : list Action) (s : System) : StepResult :=
  match acts with
  | [] => Next s
  | a :: rest =>
      match step a s with
      | Next s' => run rest s'
      | Disabled => Disabled
      end
  end.

(** The system right after [runServer]: the listener is open, the
    channel is empty, [login] goes on to its receive; [reqs] are the
    requests the browser will make. *)
Definition init (reqs : list Request) : System :=
  {| chan_buf := []; incoming := reqs;
     listening := true; handlers := []; orch := AwaitJwt;
     sent := []; received := [] |}.

Definition is_finished (s : System) : bool :=
  match orch s with Finished _ => true | _ => false end.

(** Some goroutine can move, or [Shutdown] has returned. *)
Definition progress (s : System) : Prop :=
  is_finished s = true ∨ ∃ a s', step a s = Next s'.

Definition done_count (hs : list Handler) : nat :=
  length (filter (λ h, is_done h = true) hs).

Definition past_count (hs : list Handler) : nat :=
  length (filter (λ h, past_send h = true) hs).

(** What every reachable state satisfies. *)
Record Inv (n : nat) (s : System) : Prop := {
  inv_sent : sent s = received s ++ chan_buf s;
  inv_cap : (length (chan_buf s) ≤ jwtCh_cap)%nat;
  inv_recv :
    match orch s with
    | AwaitJwt => received s = []
    | Persisting v | ShuttingDown v | Draining v | Finished v =>
        received s = [v]
    end;
  inv_past : past_count (handlers s) = length (sent s);
  inv_total : (length (handlers s) + length (incoming s))%nat = n;
  inv_listen :
    listening s = match orch s with
                  | Draining _ | Finished _ => false
                  | _ => true
                  end;
  inv_fin : is_finished s = true → done_count (handlers s) = length (handlers s)
}.

(** Two requests: the page and, say, its icon. The first was answered
    and [login] has its token; the handler of the second is past its
    send, its empty value sits in the channel. *)
Definition served_twice : System :=
  {| chan_buf := [""]; incoming := [];
     listening := true; handlers := [Done alice; Replying favicon];
     orch := Persisting "abc123";
     sent := ["abc123"; ""]; received := ["abc123"] |}.

(** Three requests accepted before [Shutdown] closed the listener. *)
Definition third_parked : System :=
  {| chan_buf := [""]; incoming := [];
     listening := false;
     handlers := [Done alice; Done favicon; AtSend favicon];
     orch := Draining "abc123";
     sent := ["abc123"; ""]; received := ["abc123"] |}.

(** Fresh login, the callback followed by two more requests before the
    listener is closed. *)
Definition w_three_hits : World :=
  sample_world "" (inr (Err "unused")) api None None
    (inl (response 200 "200 OK" (latest_body "v0.1.0")))
    [alice; favicon; favicon].

(** ** The paths through [login] *)

(** The effects of [login] up to its receive on [jwtCh], once the
    settings were read and the server runs on [port]. *)
Definition awaiting (w : World) (s : Settings) (port : Z) : list Event :=
  ReadSettings :: trace (isJwtTokenValid w (GetToken s))
  ++ [Stdout ("Waiting for authentication..." +:+ LF); ParseTemplate; Listen;
      Serve port]
  ++ trace (beginAuth w port) ++ trace (versionProbe w).

(** What follows [settings.SetToken(jwt)] and the call of [Shutdown]. *)
Inductive AfterWrite (w : World) (jwt : string) :
    list Event → Outcome (option error) → Prop :=
| ShutdownHangs :
    (2 < length (callback_hits w))%nat →
    AfterWrite w jwt [] Blocks
| WriteFailed err :
    (length (callback_hits w) ≤ 2)%nat →
    settings_SetToken w jwt = Some err →
    AfterWrite w jwt []
      (Returns (Some (Errorf "error persisting token on local config: " err)))
| Reported latestVersion :
    (length (callback_hits w) ≤ 2)%nat →
    settings_SetToken w jwt = None →
    outcome (versionProbe w) = Returns latestVersion →
    AfterWrite w jwt
      ([ChanRecv versionChannel latestVersion; Stdout ("✔  Success!" +:+ LF)]
       ++ (if decide (version w ≠ latestVersion)
           then trace (upgrade_notice w latestVersion) else []))
      (Returns None).

(** One constructor per way [login] ends: its [return] statements, and
    the two places where it can wait forever. *)
Inductive LoginPath (w : World) : list Event → Outcome (option error) → Prop :=
| NoConfig err :
    settings_ReadSettings w = inr err →
    LoginPath w [ReadSettings]
      (Returns (Some (Errorf "could not retrieve local config: " err)))
| StillValid s :
    settings_ReadSettings w = inl s →
    outcome (isJwtTokenValid w (GetToken s)) = Returns true →
    LoginPath w
      (ReadSettings :: trace (isJwtTokenValid w (GetToken s))
       ++ [Stdout ("✔  Success! Existing JWT still valid" +:+ LF)])
      (Returns None)
| NoTemplate s err :
    settings_ReadSettings w = inl s →
    outcome (isJwtTokenValid w (GetToken s)) = Returns false →
    template_Parse w = Some err →
    LoginPath w
      (ReadSettings :: trace (isJwtTokenValid w (GetToken s))
       ++ [Stdout ("Waiting for authentication..." +:+ LF); ParseTemplate])
      (Returns (Some (Errorf "internal error. Cannot create callback: "
                        (Errorf "could not parse login callback template: " err))))
| NoPort s err :
    settings_ReadSettings w = inl s →
    outcome (isJwtTokenValid w (GetToken s)) = Returns false →
    template_Parse w = None →
    net_Listen w = inr err →
    LoginPath w
      (ReadSettings :: trace (isJwtTokenValid w (GetToken s))
       ++ [Stdout ("Waiting for authentication..." +:+ LF); ParseTemplate; Listen])
      (Returns (Some (Errorf "internal error. Cannot run authentication server: "
                        (Errorf "could not allocate port for http server: " err))))
| BadHost s port err :
    settings_ReadSettings w = inl s →
    outcome (isJwtTokenValid w (GetToken s)) = Returns false →
    template_Parse w = None →
    net_Listen w = inl port →
    url_Parse w (getHost w) = inr err →
    LoginPath w
      (ReadSettings :: trace (isJwtTokenValid w (GetToken s))
       ++ [Stdout ("Waiting for authentication..." +:+ LF); ParseTemplate; Listen;
           Serve port])
      (Returns (Some (Errorf "internal error. Cannot initiate auth flow: "
                        (Errorf "error parsing auth URL: " err))))
| NoCallback s port u :
    settings_ReadSettings w = inl s →
    outcome (isJwtTokenValid w (GetToken s)) = Returns false →
    template_Parse w = None →
    net_Listen w = inl port →
    url_Parse w (getHost w) = inl u →
    callback_hits w = [] →
    LoginPath w (awaiting w s port) Blocks
| Callback s port u r rest post out :
    settings_ReadSettings w = inl s →
    outcome (isJwtTokenValid w (GetToken s)) = Returns false →
    template_Parse w = None →
    net_Listen w = inl port →
    url_Parse w (getHost w) = inl u →
    callback_hits w = r :: rest →
    AfterWrite w (handler r).1 post out →
    LoginPath w
      (awaiting w s port
       ++ [ChanRecv jwtCh (handler r).1; SetToken (handler r).1; Shutdown]
       ++ post)
      out.

(** Events that are neither a receive, nor the settings write, nor the
    shutdown. *)
Definition is_quiet (e : Event) : bool :=
  match e with
  | ChanRecv _ _ | SetToken _ | Shutdown => false
  | _ => true
  end.

Definition is_Get (e : Event) : bool :=
  match e with Get _ _ => true | _ => false end.

(** The version probe fails in one of the ways [fetchLatestVersion]
    tells apart. *)
Inductive ProbeFails (w : World) : Prop :=
| NetworkError err :
    releases_latest w = inr err → ProbeFails w
| BadStatus resp :
    releases_latest w = inl resp → StatusCode resp ≠ StatusOK → ProbeFails w
| UnreadableBody resp err :
    releases_latest w = inl resp → Body resp = inr err → ProbeFails w
| MalformedBody resp body err :
    releases_latest w = inl resp → Body resp = inl body →
    json_Unmarshal w body = inr err → ProbeFails w
| EmptyLatest resp body :
    releases_latest w = inl resp → Body resp = inl body →
    json_Unmarshal w body = inl "" → ProbeFails w.

(** The same world with another answer of the release endpoint. *)
Definition with_releases (latest : Response + error) (w : World) : World :=
  {| version := version w; Emph := Emph w; url_Parse := url_Parse w;
     json_Unmarshal := json_Unmarshal w;
     settings_ReadSettings := settings_ReadSettings w;
     settings_SetToken := settings_SetToken w;
     validate_token := validate_token w;
     releases_latest := latest;
     template_Parse := template_Parse w;
     net_Listen := net_Listen w;
     getHost := getHost w;
     browser_OpenURL := browser_OpenURL w;
     callback_hits := callback_hits w |}.

(** The URL [beginAuth] hands to the browser. *)
Definition authUrl_for (u : URL) (port : Z) : string :=
  URL_String
    {| Head := Head u;
       RawQuery := Values_Encode {[ "port" := [Itoa port]; "redirect" := ["true"] ]};
       Tail := Tail u |}.

(** [a] occurs before [b] in [t]. *)
Definition precedes (a b : Event) (t : list Event) : Prop :=
  ∃ i j : nat, (i < j)%nat ∧ t !! i = Some a ∧ t !! j = Some b.

(** What [login] does once [Shutdown] returned: the version receive and
    the printing. *)
Definition is_report (e : Event) : bool :=
  match e with
  | ChanRecv versionChannel _ | Stdout _ => true
  | _ => false
  end.

(** ** Strings that [url.QueryEscape] leaves alone *)

Fixpoint unreserved_only (s : string) : bool :=
  match s with
  | EmptyString => true
  | String c rest => is_unreserved c && unreserved_only rest
  end.

(** ** What the events of a run tell *)

(** What an event of a run of [login] tells about the world. *)
Inductive Told (w : World) : Event → Prop :=
| told_read : Told w ReadSettings
| told_validate s :
    settings_ReadSettings w = inl s → GetToken s ≠ "" →
    Told w (Get true "/v2/validate/token")
| told_print text : Told w (Stdout text)
| told_template s :
    settings_ReadSettings w = inl s →
    outcome (isJwtTokenValid w (GetToken s)) = Returns false →
    Told w ParseTemplate
| told_listen : template_Parse w = None → Told w Listen
| told_serve port :
    template_Parse w = None → net_Listen w = inl port → Told w (Serve port)
| told_open port u :
    net_Listen w = inl port → url_Parse w (getHost w) = inl u →
    Told w (OpenURL (authUrl_for u port))
| told_probe port u :
    net_Listen w = inl port → url_Parse w (getHost w) = inl u →
    Told w (Get false "/releases/latest")
| told_send port u v :
    net_Listen w = inl port → url_Parse w (getHost w) = inl u →
    outcome (versionProbe w) = Returns v →
    Told w (ChanSend versionChannel v)
| told_receive port u r rest :
    net_Listen w = inl port → url_Parse w (getHost w) = inl u →
    callback_hits w = r :: rest →
    Told w (ChanRecv jwtCh (handler r).1)
| told_write port u r rest :
    net_Listen w = inl port → url_Parse w (getHost w) = inl u →
    callback_hits w = r :: rest →
    Told w (SetToken (handler r).1)
| told_shutdown port r rest :
    net_Listen w = inl port → callback_hits w = r :: rest →
    Told w Shutdown
| told_version v r rest :
    callback_hits w = r :: rest →
    settings_SetToken w (handler r).1 = None →
    outcome (versionProbe w) = Returns v →
    Told w (ChanRecv versionChannel v).

(** The request a handler goroutine serves. *)
Definition served (h : Handler) : Request :=
  match h with AtSend r | Replying r | Done r => r end.

(** ** account_show.go

    [accountShowCmd.RunE] lists the databases, gathers for each of them
    its instances and a token, inspects every instance in a goroutine of
    an [errgroup], sums up what the inspections report and prints the
    usage table. *)

(** What the command takes from packages that are not at hand: the types
    [turso.Database] and [turso.Instance] with the fields the command
    reads, the command package's [InspectInfo] with its methods,
    [getInstanceHttpUrl], [internal.Emph] and [humanize.IBytes]. *)
Class Turso := {
  Database : Type;
  DbInstance : Type;
  InspectInfo : Type;
  Name : Database → string;
  Regions : Database → list string;
  Region : DbInstance → string;
  (** [InspectInfo{}] *)
  InspectInfo_zero : InspectInfo;
  (** [inspectRet.Accumulate(ret)]: the receiver after the call *)
  Accumulate : InspectInfo → InspectInfo → InspectInfo;
  PrintTotal : InspectInfo → string;
  RowsReadCount : InspectInfo → Z;
  getInstanceHttpUrl : Settings → Database → DbInstance → string;
  internal_Emph : string → string;
  humanize_IBytes : Z → string
}.

Section AccountShow.

Context {T : Turso}.

(** The answers of the outside world to one run of the command. The
    calls in the loops are told apart by their position. *)
Record Cloud := {
  (** [settings.ReadSettings()] *)
  cloud_ReadSettings : Settings + error;
  (** [createTursoClientFromAccessToken(true)] *)
  cloud_client : option error;
  (** [client.Databases.List()] *)
  Databases_List : list Database + error;
  (** [client.Instances.List(name)] in round [idx] of the first loop *)
  Instances_List : nat → string → list DbInstance + error;
  (** [client.Databases.Token(name, expiration, readOnly)] in round
      [idx] of the first loop *)
  Databases_Token : nat → string → string → bool → string + error;
  (** [inspect(ctx, url, token, region, detailed)] in the goroutine
      started as number [k] *)
  inspect : nat → string → string → string → bool → InspectInfo + error;
  (** which of the failing goroutines fails first: its error is the one
      [g.Wait()] returns *)
  race : nat
}.

(** A cell of a table row: [AddRow] takes strings and numbers. *)
Inductive Cell := Text (s : string) | Number (n : Z).

Inductive Call :=
| ReadSettingsCall
| NewClient
| ListDatabases
| ListInstances (db : string)
| MintToken (db expiration : string) (readOnly : bool)
| Inspect (url token region : string) (detailed : bool)
| PrintText (text : string)
| PrintTable (columns : list string) (rows : list (list Cell)).

(** How the command ends: [return nil], [return err], a goroutine or
    the main flow parked for ever, or an index out of range. *)
Inductive Exit := Nil | Failed (err : error) | Deadlock | IndexPanic.

(** The variables the first loop fills. *)
Record Gathered := {
  numLocations : nat;
  dbTokens : list string;
  dbInstances : list (list DbInstance);
  instanceCount : nat
}.

(** [for _, database := range databases { ... }], from round [idx] on. *)
Fixpoint gather (c : Cloud) (idx : nat) (databases : list Database)
    (g : Gathered) : list Call * (Gathered + error) :=
  match databases with
  | [] => ([], inl g)
  | database :: rest =>
      let numLocations := (numLocations g + length (Regions database))%nat in
      match Instances_List c idx (Name database) with
      | inr err => ([ListInstances (Name database)], inr err)
      | inl instances =>
          match Databases_Token c idx (Name database) "1d" true with
          | inr err =>
              ([ListInstances (Name database);
                MintToken (Name database) "1d" true], inr err)
          | inl token =>
              let '(calls, r) :=
                gather c (S idx) rest
                  {| numLocations := numLocations;
                     dbTokens := dbTokens g ++ [token];
                     dbInstances := dbInstances g ++ [instances];
                     instanceCount := (instanceCount g + length instances)%nat |} in
              (ListInstances (Name database)
               :: MintToken (Name database) "1d" true :: calls, r)
          end
      end
  end.

(** The errgroup and the result channel while goroutines are started.
    The goroutines are run one after the other in the order of their
    start; they share only the channel and the group. *)
Record Group := {
  g_calls : list Call;            (* the calls of the goroutines *)
  g_buf : list InspectInfo;       (* buffer of [inspectResCh] *)
  g_errs : list error;            (* errors the goroutines returned *)
  g_started : nat;                (* goroutines started so far *)
  g_stuck : bool;                 (* a send found the buffer full *)
  g_panic : bool                  (* an index was out of range *)
}.

(** The function handed to [g.Go], with the values it captured;
    [cap] is the capacity [inspectResCh] was made with. *)
Definition inspect_task (c : Cloud) (settings : Settings) (cap : nat)
    (tokens : list string) (idx : nat) (database : Database)
    (st : Group) (instance : DbInstance) : Group :=
  if g_panic st then st
  else
    let url := getInstanceHttpUrl settings database instance in
    match tokens !! idx with
    | None =>
        {| g_calls := g_calls st; g_buf := g_buf st; g_errs := g_errs st;
           g_started := S (g_started st); g_stuck := g_stuck st;
           g_panic := true |}
    | Some token =>
        let call := Inspect url token (Region instance) false in
        match inspect c (g_started st) url token (Region instance) false with
        | inr err =>
            {| g_calls := g_calls st ++ [call]; g_buf := g_buf st;
               g_errs := g_errs st ++ [err];
               g_started := S (g_started st); g_stuck := g_stuck st;
               g_panic := false |}
        | inl ret =>
            if decide (length (g_buf st) < cap)%nat then
              {| g_calls := g_calls st ++ [call];
                 g_buf := g_buf st ++ [ret]; g_errs := g_errs st;
                 g_started := S (g_started st); g_stuck := g_stuck st;
                 g_panic := false |}
            else
              {| g_calls := g_calls st ++ [call]; g_buf := g_buf st;
                 g_errs := g_errs st;
                 g_started := S (g_started st); g_stuck := true;
                 g_panic := false |}
        end
    end.

(** [for idx, database := range databases { for _, instance := range
    dbInstances[idx] { g.Go(...) } }], from index [idx] on. *)
Fixpoint launch (c : Cloud) (settings : Settings) (g : Gathered)
    (idx : nat) (databases : list Database) (st : Group) : Group :=
  match databases with
  | [] => st
  | database :: rest =>
      if g_panic st then st
      else
        match dbInstances g !! idx with
        | None =>
            {| g_calls := g_calls st; g_buf := g_buf st; g_errs := g_errs st;
               g_started := g_started st; g_stuck := g_stuck st;
               g_panic := true |}
        | Some instances =>
            launch c settings g (S idx) rest
              (foldl (inspect_task c settings (instanceCount g) (dbTokens g)
                        idx database) st instances)
        end
  end.

(** [for i := 0; i < instanceCount; i++ { ret := <-inspectResCh;
    inspectRet.Accumulate(ret) }]; [None] when a receive finds the
    channel empty with no sender left. *)
Fixpoint drain (n : nat) (buf : list InspectInfo) (inspectRet : InspectInfo)
    : option InspectInfo :=
  match n with
  | O => Some inspectRet
  | S n =>
      match buf with
      | [] => None
      | ret :: buf => drain n buf (Accumulate inspectRet ret)
      end
  end.

Definition no_group : Group :=
  {| g_calls := []; g_buf := []; g_errs := []; g_started := 0;
     g_stuck := false; g_panic := false |}.

Definition usage_table (inspectRet : InspectInfo) (numDatabases numLocations : nat)
    : Call :=
  PrintTable ["RESOURCE"; "USED"; "MAX"]
    [ [Text "storage"; Text (PrintTotal inspectRet);
       Text (humanize_IBytes (8 * 1024 * 1024 * 1024))];
      [Text "rows read"; Number (RowsReadCount inspectRet);
       Text (Itoa 1000000000)];
      [Text "databases"; Number (Z.of_nat numDatabases); Text "3"];
      [Text "locations"; Number (Z.of_nat numLocations); Text "3"] ].

(** [accountShowCmd.RunE] *)
Definition accountShowCmd (c : Cloud) : list Call * Exit :=
  match cloud_ReadSettings c with
  | inr err => ([ReadSettingsCall], Failed err)
  | inl settings =>
      match cloud_client c with
      | Some err => ([ReadSettingsCall; NewClient], Failed err)
      | None =>
          match Databases_List c with
          | inr err => ([ReadSettingsCall; NewClient; ListDatabases], Failed err)
          | inl databases =>
              let numDatabases := length databases in
              let '(calls, r) :=
                gather c 0 databases
                  {| numLocations := 0; dbTokens := []; dbInstances := [];
                     instanceCount := 0 |} in
              let before := [ReadSettingsCall; NewClient; ListDatabases] ++ calls in
              match r with
              | inr err => (before, Failed err)
              | inl g =>
                  let st := launch c settings g 0 databases no_group in
                  let started := before ++ g_calls st in
                  if g_panic st then (started, IndexPanic)
                  else if g_stuck st then (started, Deadlock)
                  else
                    match g_errs st with
                    | err :: errs =>
                        (started,
                         Failed (default err
                                   ((err :: errs)
                                      !! (race c `mod` length (err :: errs))%nat)))
                    | [] =>
                        match drain (instanceCount g) (g_buf st) InspectInfo_zero with
                        | None => (started, Deadlock)
                        | Some inspectRet =>
                            (started
                             ++ [PrintText ("You are currently on "
                                            +:+ internal_Emph "starter"
                                            +:+ " plan." +:+ LF);
                                 PrintText LF;
                                 usage_table inspectRet numDatabases
                                   (numLocations g)],
                             Nil)
                        end
                    end
              end
          end
      end
  end.

(** The calls of the goroutines for databases [dbs], given the token
    and the instances of each. *)
Fixpoint inspect_calls (settings : Settings) (dbs : list Database)
    (toks : list string) (insts : list (list DbInstance)) : list Call :=
  match dbs, toks, insts with
  | db :: dbs, tok :: toks, instances :: insts =>
      ((λ inst, Inspect (getInstanceHttpUrl settings db inst) tok
                  (Region inst) false) <$> instances)
      ++ inspect_calls settings dbs toks insts
  | _, _, _ => []
  end.

Definition is_print (e : Call) : bool :=
  match e with PrintText _ | PrintTable _ _ => true | _ => false end.

Definition is_inspect (e : Call) : bool :=
  match e with Inspect _ _ _ _ => true | _ => false end.

Definition total_regions (dbs : list Database) : nat :=
  sum_list ((λ db, length (Regions db)) <$> dbs).

End AccountShow.

(** A small account for the examples: two databases, three instances. *)
#[global] Instance sample_turso : Turso := {|
  Database := string * list string;
  DbInstance := string * string;
  InspectInfo := Z * Z;
  Name := fst;
  Regions := snd;
  Region := snd;
  InspectInfo_zero := (0, 0);
  Accumulate := λ a b, (a.1 + b.1, a.2 + b.2);
  PrintTotal := λ a, Itoa a.1;
  RowsReadCount := snd;
  getInstanceHttpUrl := λ _ db inst, "https://" +:+ inst.1 +:+ "-" +:+ db.1;
  internal_Emph := λ s, s;
  humanize_IBytes := Itoa
|}.

Definition sample_cloud : Cloud := {|
  cloud_ReadSettings := inl {| token := "t" |};
  cloud_client := None;
  Databases_List := inl [("db1", ["ams"; "fra"]); ("db2", ["ams"])];
  Instances_List := λ idx name,
    inl (if decide (name = "db1") then [("i1", "ams"); ("i2", "fra")]
         else [("i3", "ams")]);
  Databases_Token := λ idx name _ _, inl ("tok-" +:+ name);
  inspect := λ k _ _ _ _, inl (Z.of_nat (S k), 10);
  race := 0
|}.


(** * Properties *)

Ltac go_unfold :=
  unfold mbind, mret, Go_mbind, Go_mret, Go_bind, Go_ret, emit, park,
         Println, Printf, trace, outcome in *.

Ltac go_simpl := go_unfold; cbn [fst snd app] in *.

(** Membership of an event in a list that is written out. *)
Ltac present :=
  repeat first [ apply list_elem_of_here | apply list_elem_of_further ].

Ltac absent :=
  repeat first
    [ apply not_elem_of_nil
    | apply not_elem_of_cons; split; [discriminate|] ].

Lemma length_zero_empty (s : string) : String.length s = 0%nat ↔ s = "".
Proof. destruct s; simpl; split; intros; (done || lia). Qed.

Section Traces.

Context (w : World).

(** ** The helpers of [login] *)

Lemma isJwtTokenValid_empty :
  isJwtTokenValid w "" = ([], Returns false).
Proof. reflexivity. Qed.

Lemma isJwtTokenValid_nonempty (tok : string) :
  tok ≠ "" →
  isJwtTokenValid w tok =
    ([Get true "/v2/validate/token"],
     Returns match validate_token w with
             | inl resp => bool_decide (StatusCode resp = StatusOK)
             | inr _ => false
             end).
Proof.
  intros Hne. unfold isJwtTokenValid.
  destruct (decide (String.length tok = 0%nat)) as [E|_]; [|reflexivity].
  apply length_zero_empty in E. contradiction.
Qed.

Lemma isJwtTokenValid_returns (tok : string) :
  ∃ b, outcome (isJwtTokenValid w tok) = Returns b.
Proof.
  destruct (decide (tok = "")) as [->|Hne].
  - exists false. reflexivity.
  - rewrite (isJwtTokenValid_nonempty tok Hne). eexists. reflexivity.
Qed.

Lemma versionProbe_run :
  ∃ v, versionProbe w =
         ([Get false "/releases/latest"; ChanSend versionChannel v], Returns v).
Proof.
  unfold versionProbe, fetchLatestVersion. go_simpl.
  destruct (releases_latest w) as [resp|e]; [|eexists; reflexivity].
  destruct (decide (StatusCode resp ≠ StatusOK)); [eexists; reflexivity|].
  destruct (Body resp) as [body|e]; [|eexists; reflexivity].
  destruct (json_Unmarshal w body) as [v|e]; [|eexists; reflexivity].
  destruct (decide (String.length v = 0%nat)); eexists; reflexivity.
Qed.

Lemma beginAuth_parsed (port : Z) (u : URL) :
  url_Parse w (getHost w) = inl u →
  beginAuth w port =
    (OpenURL (authUrl_for u port)
     :: match browser_OpenURL w (authUrl_for u port) with
        | Some _ =>
            [Stdout ("Please open the following URL to login: "
                     +:+ Emph w (authUrl_for u port) +:+ LF)]
        | None => []
        end,
     Returns None).
Proof.
  intros Hu. unfold beginAuth. rewrite Hu. fold (authUrl_for u port).
  destruct (browser_OpenURL w (authUrl_for u port)); reflexivity.
Qed.

Lemma beginAuth_unparsed (port : Z) (err : error) :
  url_Parse w (getHost w) = inr err →
  beginAuth w port = ([], Returns (Some (Errorf "error parsing auth URL: " err))).
Proof. intros Hu. unfold beginAuth. rewrite Hu. reflexivity. Qed.

(** ** Every run of [login] follows one of the paths *)

Lemma LoginPath_eq t t' out :
  LoginPath w t out → t = t' → LoginPath w t' out.
Proof. by intros H <-. Qed.

Ltac same_trace :=
  cbn [app]; repeat (rewrite <- app_assoc; cbn [app]); reflexivity.

Lemma login_path :
  LoginPath w (trace (login w)) (outcome (login w)).
Proof.
  unfold login.
  destruct (settings_ReadSettings w) as [s|err] eqn:Hs; [|by apply NoConfig].
  destruct (isJwtTokenValid_returns (GetToken s)) as [b Hb].
  pose proof (StillValid w s Hs) as P1.
  pose proof (NoTemplate w s) as P2.
  pose proof (NoPort w s) as P3.
  pose proof (BadHost w s) as P4.
  pose proof (NoCallback w s) as P5.
  pose proof (Callback w s) as P6.
  unfold awaiting in *.
  destruct (isJwtTokenValid w (GetToken s)) as [tv ov] eqn:Hv.
  go_simpl. subst ov.
  destruct b; [by apply P1|].
  unfold createCallbackServer, runServer. go_simpl.
  destruct (template_Parse w) as [e|] eqn:Ht; [by apply P2|].
  destruct (net_Listen w) as [port|e] eqn:Hl; [|by apply P3].
  go_simpl.
  destruct (url_Parse w (getHost w)) as [u|e] eqn:Hu.
  2:{ rewrite (beginAuth_unparsed port e Hu). by apply P4. }
  specialize (P5 port u). specialize (P6 port u).
  destruct (versionProbe_run) as [v Hp].
  rewrite (beginAuth_parsed port u Hu) in *.
  rewrite Hp in *. go_simpl.
  unfold recv_jwtCh.
  destruct (callback_hits w) as [|r rest] eqn:Hh.
  { go_simpl. by apply P5. }
  specialize (P6 r rest). unfold server_Shutdown.
  destruct (decide (length (callback_hits w) ≤ 2)%nat) as [Hle|Hgt]; go_simpl.
  2:{ eapply LoginPath_eq; [apply P6; try done; apply ShutdownHangs; lia|].
      same_trace. }
  destruct (settings_SetToken w (handler r).1) as [e|] eqn:Hset; go_simpl.
  { eapply LoginPath_eq; [apply P6; try done; by apply WriteFailed|].
    same_trace. }
  pose proof (Reported w (handler r).1 v Hle Hset) as R.
  rewrite Hp in R. specialize (R eq_refl).
  unfold upgrade_notice in *. go_simpl.
  destruct (decide (version w ≠ v)); go_simpl;
    (eapply LoginPath_eq; [apply P6; try done; exact R|same_trace]).
Qed.

(** ** What the parts of a trace contain *)

Lemma isJwtTokenValid_quiet (tok : string) :
  Forall (λ e, is_quiet e = true) (trace (isJwtTokenValid w tok)).
Proof.
  destruct (decide (tok = "")) as [->|Hne].
  - constructor.
  - rewrite (isJwtTokenValid_nonempty tok Hne). by repeat constructor.
Qed.

Lemma beginAuth_quiet (port : Z) :
  Forall (λ e, is_quiet e = true) (trace (beginAuth w port)).
Proof.
  destruct (url_Parse w (getHost w)) as [u|e] eqn:Hu.
  - rewrite (beginAuth_parsed port u Hu). unfold trace; simpl.
    destruct (browser_OpenURL w _); by repeat constructor.
  - rewrite (beginAuth_unparsed port e Hu). constructor.
Qed.

Lemma versionProbe_quiet :
  Forall (λ e, is_quiet e = true) (trace (versionProbe w)).
Proof.
  destruct (versionProbe_run) as [v ->]. by repeat constructor.
Qed.

Lemma awaiting_quiet (s : Settings) (port : Z) :
  Forall (λ e, is_quiet e = true) (awaiting w s port).
Proof.
  unfold awaiting. constructor; [done|].
  repeat (apply Forall_app; split);
    auto using isJwtTokenValid_quiet, beginAuth_quiet, versionProbe_quiet.
Qed.

Lemma after_write_report (jwt : string) post out :
  AfterWrite w jwt post out → Forall (λ e, is_report e = true) post.
Proof.
  destruct 1; try constructor; [done|].
  constructor; [done|].
  destruct (decide (version w ≠ latestVersion)); by repeat constructor.
Qed.

(** A run of [login] either stays quiet, or goes through the receive,
    the settings write and the shutdown, in this order. *)
Lemma login_shape :
  Forall (λ e, is_quiet e = true) (trace (login w))
  ∨ ∃ pre r rest post,
      callback_hits w = r :: rest
      ∧ trace (login w) =
          pre ++ [ChanRecv jwtCh (handler r).1; SetToken (handler r).1; Shutdown]
          ++ post
      ∧ Forall (λ e, is_quiet e = true) pre
      ∧ Forall (λ e, is_report e = true) post
      ∧ AfterWrite w (handler r).1 post (outcome (login w)).
Proof.
  destruct (login_path) as [e He|s Hs Hv|s e Hs Hv Ht|s e Hs Hv Ht Hl
                             |s port e Hs Hv Ht Hl Hu|s port u Hs Hv Ht Hl Hu Hh
                             |s port u r rest post out Hs Hv Ht Hl Hu Hh Ha].
  1-5: left; repeat first
         [ apply Forall_cons; split; [done|]
         | apply Forall_app; split
         | apply isJwtTokenValid_quiet
         | apply Forall_nil_2 ].
  - left. apply awaiting_quiet.
  - right. exists (awaiting w s port), r, rest, post.
    eauto 6 using awaiting_quiet, after_write_report.
Qed.

Lemma quiet_not_elem (e : Event) (t : list Event) :
  Forall (λ e, is_quiet e = true) t → is_quiet e = false → e ∉ t.
Proof.
  intros Hall He Hin. rewrite Forall_forall in Hall.
  specialize (Hall e Hin). congruence.
Qed.

Lemma report_not_elem (e : Event) (t : list Event) :
  Forall (λ e, is_report e = true) t → is_report e = false → e ∉ t.
Proof.
  intros Hall He Hin. rewrite Forall_forall in Hall.
  specialize (Hall e Hin). congruence.
Qed.

(** Where an element of [pre ++ a :: b :: post] sits. *)
Lemma lookup_around (pre post : list Event) (a b e : Event) (i : nat) :
  (pre ++ a :: b :: post) !! i = Some e →
  e ∈ pre ∨ (i = length pre ∧ e = a) ∨ (i = S (length pre) ∧ e = b) ∨ e ∈ post.
Proof.
  intros H. apply lookup_app_Some in H as [H|[Hge H]].
  - left. by eapply list_elem_of_lookup_2.
  - right. destruct (i - length pre)%nat as [|[|k]] eqn:Hk; simpl in H.
    + left. split; [lia|congruence].
    + right; left. split; [lia|congruence].
    + right; right. by eapply list_elem_of_lookup_2.
Qed.

(** The token written is the one received. *)
Lemma written_is_received (pre post : list Event) (jwt tok : string) :
  Forall (λ e, is_quiet e = true) pre →
  Forall (λ e, is_report e = true) post →
  SetToken tok ∈ pre ++ [ChanRecv jwtCh jwt; SetToken jwt; Shutdown] ++ post →
  tok = jwt.
Proof.
  intros Hpre Hpost Hin.
  apply elem_of_app in Hin as [Hin|Hin];
    [by apply (quiet_not_elem (SetToken tok)) in Hpre|].
  apply elem_of_app in Hin as [Hin|Hin];
    [|by apply (report_not_elem (SetToken tok)) in Hpost].
  repeat (apply elem_of_cons in Hin as [Hin|Hin]; [congruence|]).
  by apply elem_of_nil in Hin.
Qed.

(** The settings write is followed at once by the shutdown, and neither
    happens anywhere else in the run. *)
Lemma login_write_shape (jwt : string) :
  SetToken jwt ∈ trace (login w) →
  ∃ pre post,
    trace (login w) = pre ++ SetToken jwt :: Shutdown :: post
    ∧ (∀ tok, SetToken tok ∉ pre) ∧ (Shutdown ∉ pre)
    ∧ (∀ tok, SetToken tok ∉ post) ∧ (Shutdown ∉ post).
Proof.
  intros Hin.
  destruct (login_shape) as [Hq|(pre & r & rest & post & Hh & Ht & Hpre & Hpost & _)].
  { by apply (quiet_not_elem (SetToken jwt)) in Hq. }
  assert (jwt = (handler r).1) as ->.
  { rewrite Ht in Hin. by apply written_is_received in Hin. }
  exists (pre ++ [ChanRecv jwtCh (handler r).1]), post.
  split; [rewrite Ht; by rewrite <- app_assoc|].
  assert (∀ e, is_quiet e = false → e ≠ ChanRecv jwtCh (handler r).1 →
               e ∉ pre ++ [ChanRecv jwtCh (handler r).1]) as Hpre'.
  { intros e He Hne. rewrite elem_of_app, list_elem_of_singleton.
    intros [Hin'|Hin']; [by apply (quiet_not_elem _ pre) in Hin'|done]. }
  split; [|split; [|split]].
  - intros tok. by apply Hpre'.
  - by apply Hpre'.
  - intros tok. by apply report_not_elem.
  - by apply report_not_elem.
Qed.

Lemma shutdown_not_before_write (jwt : string) :
  ¬ precedes Shutdown (SetToken jwt) (trace (login w)).
Proof.
  intros (i & j & Hlt & Hi & Hj).
  assert (SetToken jwt ∈ trace (login w)) as Hin.
  { by eapply list_elem_of_lookup_2. }
  destruct (login_write_shape jwt Hin)
    as (pre & post & Ht & Hw1 & Hs1 & Hw2 & Hs2).
  rewrite Ht in Hi, Hj.
  apply lookup_around in Hi as [Hi|[[_ Hi]|[[Hi _]|Hi]]]; try done.
  apply lookup_around in Hj as [Hj|[[Hj _]|[[_ Hj]|Hj]]]; try done.
  - by apply Hw1 in Hj.
  - lia.
  - by apply Hw2 in Hj.
Qed.

End Traces.

(** ** C1: shutdown and the settings write *)

(** C1, as the code has it: whenever [login] comes to write the received
    credential, the write [settings.SetToken(jwt)] is performed first and
    [server.Shutdown] is called right after it has returned, before the
    write's error is looked at; this holds whether the write succeeds or
    fails, and the shutdown never comes before the write. *)
Theorem login_shutdown_follows_write (w : World) (jwt : string) :
  SetToken jwt ∈ trace (login w) →
  (∃ pre post,
      trace (login w) = pre ++ SetToken jwt :: Shutdown :: post
      ∧ (Shutdown ∉ pre) ∧ (Shutdown ∉ post))
  ∧ precedes (SetToken jwt) Shutdown (trace (login w))
  ∧ ¬ precedes Shutdown (SetToken jwt) (trace (login w)).
Proof.
  intros Hin.
  destruct (login_write_shape w jwt Hin)
    as (pre & post & Ht & Hw1 & Hs1 & Hw2 & Hs2).
  split; [by exists pre, post|].
  split; [|apply shutdown_not_before_write].
  exists (length pre), (S (length pre)). rewrite Ht.
  split; [lia|]. split.
  - by rewrite lookup_app_r, Nat.sub_diag by lia.
  - rewrite lookup_app_r by lia.
    by replace (S (length pre) - length pre)%nat with 1%nat by lia.
Qed.

Lemma login_shutdown_follows_write_witness :
  settings_SetToken w_write_fails "abc123" = Some (Err "disk full")
  ∧ precedes (SetToken "abc123") Shutdown (trace (login w_write_fails)).
Proof.
  split; [reflexivity|].
  apply (login_shutdown_follows_write w_write_fails "abc123").
  vm_compute. present.
Defined.

(** C1 as stated fails: in a completed run that writes the credential,
    the shutdown does not come before the write. *)
Lemma login_shutdown_before_write_fails :
  outcome (login w_fresh) = Returns None
  ∧ SetToken "abc123" ∈ trace (login w_fresh)
  ∧ ¬ precedes Shutdown (SetToken "abc123") (trace (login w_fresh)).
Proof.
  split; [reflexivity|]. split.
  - vm_compute. present.
  - apply shutdown_not_before_write.
Qed.

(** ** C2: shutdown on every exit after the server was started *)

(** C2 fails on the code at the early return after [beginAuth]: with a
    host that [url.Parse] rejects, [login] has started the server
    ([runServer] returned a port) and returns the error without calling
    [server.Shutdown]. *)
Theorem login_bad_host_leaks_server :
  login w_bad_host =
    ([ReadSettings; Stdout ("Waiting for authentication..." +:+ LF);
      ParseTemplate; Listen; Serve 41234],
     Returns (Some (Err ("internal error. Cannot initiate auth flow: error parsing auth URL: parse "
                         +:+ quote +:+ ":bad" +:+ quote
                         +:+ ": missing protocol scheme"))))
  ∧ Serve 41234 ∈ trace (login w_bad_host)
  ∧ Shutdown ∉ trace (login w_bad_host).
Proof.
  split; [reflexivity|]. split; vm_compute; [present|absent].
Qed.

(** On the paths that come to the receive the shutdown is called, once. *)
Lemma login_shutdown_once_after_receive (w : World) (jwt : string) :
  ChanRecv jwtCh jwt ∈ trace (login w) →
  ∃ pre post,
    trace (login w) = pre ++ Shutdown :: post
    ∧ (Shutdown ∉ pre) ∧ (Shutdown ∉ post).
Proof.
  intros Hin.
  destruct (login_shape w) as [Hq|(pre & r & rest & post & Hh & Ht & Hpre & Hpost & _)].
  { by apply (quiet_not_elem (ChanRecv jwtCh jwt)) in Hq. }
  exists (pre ++ [ChanRecv jwtCh (handler r).1; SetToken (handler r).1]), post.
  split; [rewrite Ht; by rewrite <- app_assoc|].
  split; [|by apply report_not_elem].
  rewrite elem_of_app. intros [H|H].
  - by apply (quiet_not_elem _ pre) in H.
  - repeat (apply elem_of_cons in H as [H|H]; [discriminate|]).
    by apply elem_of_nil in H.
Qed.

(** ** C3: a failed settings write *)

(** [login] returns an error when its settings write fails (or hangs in
    [Shutdown]); it never reports success. *)
Lemma login_write_error_fatal (w : World) (jwt : string) (err : error) :
  SetToken jwt ∈ trace (login w) →
  settings_SetToken w jwt = Some err →
  outcome (login w) =
    Returns (Some (Errorf "error persisting token on local config: " err))
  ∨ outcome (login w) = Blocks.
Proof.
  intros Hin Hset.
  destruct (login_shape w) as [Hq|(pre & r & rest & post & Hh & Ht & Hpre & Hpost & Ha)].
  { by apply (quiet_not_elem (SetToken jwt)) in Hq. }
  assert (jwt = (handler r).1) as ->.
  { rewrite Ht in Hin. by apply written_is_received in Hin. }
  destruct Ha as [|e' _ Hset'|v _ Hset' _]; [by right|left|congruence].
  congruence.
Qed.

(** C3 fails on the code for [logout]: with a stored token and a
    settings write that fails, [logout] drops the error of
    [settings.SetToken("")], prints "Logged out." and returns nil. *)
Theorem logout_drops_write_error :
  settings_ReadSettings w_write_fails = inl {| token := "old-token" |}
  ∧ settings_SetToken w_write_fails "" = Some (Err "disk full")
  ∧ logout w_write_fails =
      ([ReadSettings; SetToken ""; Stdout ("Logged out." +:+ LF)], Returns None).
Proof. split; [reflexivity|]. split; reflexivity. Qed.

(** [logout] returns an error only when the settings cannot be read. *)
Lemma logout_error_only_from_read (w : World) (err : error) :
  outcome (logout w) = Returns (Some err) →
  ∃ e, settings_ReadSettings w = inr e.
Proof.
  unfold logout. destruct (settings_ReadSettings w) as [s|e]; [|by eauto].
  destruct (decide (String.length (GetToken s) = 0%nat)); discriminate.
Qed.

(** ** C4: the short circuit on a valid stored credential *)

(** C4: with a non-empty stored credential that the validation endpoint
    answers with 200, [login] validates, prints that the token is still
    valid and returns nil; it parses no template, binds no port, starts
    no server and opens no browser. *)
Theorem login_short_circuit (w : World) (s : Settings) (resp : Response) :
  settings_ReadSettings w = inl s →
  GetToken s ≠ "" →
  validate_token w = inl resp →
  StatusCode resp = 200 →
  login w =
    ([ReadSettings; Get true "/v2/validate/token";
      Stdout ("✔  Success! Existing JWT still valid" +:+ LF)],
     Returns None)
  ∧ (Listen ∉ trace (login w))
  ∧ (∀ port, Serve port ∉ trace (login w))
  ∧ (∀ u, OpenURL u ∉ trace (login w)).
Proof.
  intros Hs Hne Hv H200.
  assert (login w =
    ([ReadSettings; Get true "/v2/validate/token";
      Stdout ("✔  Success! Existing JWT still valid" +:+ LF)],
     Returns None)) as ->.
  { unfold login. rewrite Hs, (isJwtTokenValid_nonempty w _ Hne), Hv.
    rewrite bool_decide_true by done. reflexivity. }
  split; [done|]. unfold trace; simpl.
  split; [|split; intros ?]; absent.
Qed.

Lemma login_short_circuit_witness :
  login w_valid =
    ([ReadSettings; Get true "/v2/validate/token";
      Stdout ("✔  Success! Existing JWT still valid" +:+ LF)],
     Returns None).
Proof.
  apply (login_short_circuit w_valid {| token := "old-token" |}
           (response 200 "200 OK" "")); [reflexivity|done|reflexivity|reflexivity].
Defined.

(** ** C10: no validation request for an empty credential *)

(** C10: [isJwtTokenValid] answers false for the empty string and makes
    no request; so [login] and [token], run with an empty stored
    credential, never ask the validation endpoint. *)
Theorem empty_token_never_validated (w : World) (s : Settings) :
  settings_ReadSettings w = inl s →
  GetToken s = "" →
  isJwtTokenValid w "" = ([], Returns false)
  ∧ (∀ auth, Get auth "/v2/validate/token" ∉ trace (login w))
  ∧ (∀ auth, Get auth "/v2/validate/token" ∉ trace (tokenCmd w))
  ∧ tokenCmd w =
      ([ReadSettings],
       Returns (Some (Err "no user logged in. Run `turso auth login` to log in and get a token"))).
Proof.
  intros Hs Htok. split; [reflexivity|].
  assert (tokenCmd w =
      ([ReadSettings],
       Returns (Some (Err "no user logged in. Run `turso auth login` to log in and get a token")))) as Ht.
  { unfold tokenCmd. rewrite Hs. simpl. rewrite Htok. reflexivity. }
  split; [|split; [|done]].
  2:{ intros auth. rewrite Ht. unfold trace; simpl. absent. }
  intros auth.
  assert (∀ port, Get auth "/v2/validate/token" ∉ awaiting w s port) as Haw.
  { intros port. unfold awaiting. rewrite Htok, isJwtTokenValid_empty.
    destruct (versionProbe_run w) as [v ->]. unfold trace; simpl.
    destruct (url_Parse w (getHost w)) as [u|e] eqn:Hu.
    - rewrite (beginAuth_parsed w port u Hu); simpl.
      destruct (browser_OpenURL w _); simpl; absent.
    - rewrite (beginAuth_unparsed w port e Hu); simpl. absent. }
  destruct (login_path w) as [e He|s' Hs' Hv|s' e Hs' Hv Ht'|s' e Hs' Hv Ht' Hl
                             |s' port e Hs' Hv Ht' Hl Hu|s' port u Hs' Hv Ht' Hl Hu Hh
                             |s' port u r rest post out Hs' Hv Ht' Hl Hu Hh Ha];
    try (assert (s' = s) as -> by congruence).
  1-5: rewrite ?Htok, ?isJwtTokenValid_empty in *; unfold trace, outcome in *;
       simpl in *; try discriminate; absent.
  - apply Haw.
  - apply not_elem_of_app; split; [apply Haw|].
    apply not_elem_of_app; split; [absent|].
    apply after_write_report in Ha. by apply report_not_elem.
Qed.

Lemma empty_token_never_validated_witness :
  isJwtTokenValid w_fresh "" = ([], Returns false)
  ∧ Get true "/v2/validate/token" ∉ trace (login w_fresh).
Proof.
  pose proof (empty_token_never_validated w_fresh {| token := "" |}
                eq_refl eq_refl) as H.
  exact (conj (proj1 H) (proj1 (proj2 H) true)).
Defined.

(** ** C5: failures of the version probe *)

Lemma versionProbe_failed (w : World) :
  ProbeFails w →
  versionProbe w =
    ([Get false "/releases/latest"; ChanSend versionChannel (version w)],
     Returns (version w)).
Proof.
  unfold versionProbe, fetchLatestVersion. go_simpl.
  destruct 1 as [e Hr|resp Hr Hst|resp e Hr Hb|resp body e Hr Hb Hj
                |resp body Hr Hb Hj]; rewrite Hr; try done;
    destruct (decide (StatusCode resp ≠ StatusOK)); try done;
    rewrite Hb; try done; rewrite Hj; done.
Qed.

(** The value [login] takes from [versionChannel] is the one the probe
    left there. *)
Lemma version_received_is_sent (w : World) (v : string) :
  ChanRecv versionChannel v ∈ trace (login w) →
  outcome (versionProbe w) = Returns v.
Proof.
  intros Hin.
  destruct (login_shape w) as [Hq|(pre & r & rest & post & Hh & Ht & Hpre & Hpost & Ha)].
  { by apply (quiet_not_elem (ChanRecv versionChannel v)) in Hq. }
  rewrite Ht in Hin.
  apply elem_of_app in Hin as [Hin|Hin];
    [by apply (quiet_not_elem (ChanRecv versionChannel v)) in Hpre|].
  apply elem_of_app in Hin as [Hin|Hin].
  { repeat (apply elem_of_cons in Hin as [Hin|Hin]; [discriminate|]).
    by apply elem_of_nil in Hin. }
  destruct Ha as [|e _ _|v' _ _ Hv']; try by apply elem_of_nil in Hin.
  apply elem_of_app in Hin as [Hin|Hin].
  - apply elem_of_cons in Hin as [Hin|Hin]; [congruence|].
    apply elem_of_cons in Hin as [Hin|Hin]; [discriminate|].
    by apply elem_of_nil in Hin.
  - destruct (decide (version w ≠ v')); [|by apply elem_of_nil in Hin].
    unfold upgrade_notice in Hin. go_simpl.
    repeat (apply elem_of_cons in Hin as [Hin|Hin]; [discriminate|]).
    by apply elem_of_nil in Hin.
Qed.

(** Everything [login] prints. *)
Lemma login_stdout (w : World) (text : string) :
  Stdout text ∈ trace (login w) →
  text = "✔  Success! Existing JWT still valid" +:+ LF
  ∨ text = "Waiting for authentication..." +:+ LF
  ∨ (∃ u, text = "Please open the following URL to login: " +:+ Emph w u +:+ LF)
  ∨ text = "✔  Success!" +:+ LF
  ∨ ∃ v, version w ≠ v ∧ outcome (versionProbe w) = Returns v
         ∧ Stdout text ∈ trace (upgrade_notice w v).
Proof.
  assert (∀ tok, Stdout text ∉ trace (isJwtTokenValid w tok)) as Hval.
  { intros tok. destruct (decide (tok = "")) as [->|Hne].
    - apply not_elem_of_nil.
    - rewrite (isJwtTokenValid_nonempty w tok Hne). unfold trace; simpl. absent. }
  assert (Stdout text ∉ trace (versionProbe w)) as Hprobe.
  { destruct (versionProbe_run w) as [v ->]. unfold trace; simpl. absent. }
  assert (∀ port, Stdout text ∈ trace (beginAuth w port) →
            ∃ u, text = "Please open the following URL to login: "
                        +:+ Emph w u +:+ LF) as Hbegin.
  { intros port Hin. destruct (url_Parse w (getHost w)) as [u|e] eqn:Hu.
    - rewrite (beginAuth_parsed w port u Hu) in Hin. unfold trace in Hin.
      simpl in Hin. apply elem_of_cons in Hin as [Hin|Hin]; [discriminate|].
      destruct (browser_OpenURL w _); [|by apply elem_of_nil in Hin].
      apply list_elem_of_singleton in Hin. injection Hin as ->. by eexists.
    - rewrite (beginAuth_unparsed w port e Hu) in Hin.
      by apply elem_of_nil in Hin. }
  assert (∀ s port, Stdout text ∈ awaiting w s port →
            text = "Waiting for authentication..." +:+ LF
            ∨ ∃ u, text = "Please open the following URL to login: "
                          +:+ Emph w u +:+ LF) as Haw.
  { intros s port Hin. unfold awaiting in Hin.
    apply elem_of_cons in Hin as [Hin|Hin]; [discriminate|].
    apply elem_of_app in Hin as [Hin|Hin]; [by apply Hval in Hin|].
    apply elem_of_app in Hin as [Hin|Hin].
    { apply elem_of_cons in Hin as [Hin|Hin]; [left; congruence|].
      repeat (apply elem_of_cons in Hin as [Hin|Hin]; [discriminate|]).
      by apply elem_of_nil in Hin. }
    apply elem_of_app in Hin as [Hin|Hin]; [right; eauto|done]. }
  intros Hin.
  destruct (login_path w) as [e He|s Hs Hv|s e Hs Hv Ht|s e Hs Hv Ht Hl
                             |s port e Hs Hv Ht Hl Hu|s port u Hs Hv Ht Hl Hu Hh
                             |s port u r rest post out Hs Hv Ht Hl Hu Hh Ha].
  - apply list_elem_of_singleton in Hin. discriminate.
  - apply elem_of_cons in Hin as [Hin|Hin]; [discriminate|].
    apply elem_of_app in Hin as [Hin|Hin]; [by apply Hval in Hin|].
    apply list_elem_of_singleton in Hin. left. congruence.
  - apply elem_of_cons in Hin as [Hin|Hin]; [discriminate|].
    apply elem_of_app in Hin as [Hin|Hin]; [by apply Hval in Hin|].
    apply elem_of_cons in Hin as [Hin|Hin]; [right; left; congruence|].
    repeat (apply elem_of_cons in Hin as [Hin|Hin]; [discriminate|]).
    by apply elem_of_nil in Hin.
  - apply elem_of_cons in Hin as [Hin|Hin]; [discriminate|].
    apply elem_of_app in Hin as [Hin|Hin]; [by apply Hval in Hin|].
    apply elem_of_cons in Hin as [Hin|Hin]; [right; left; congruence|].
    repeat (apply elem_of_cons in Hin as [Hin|Hin]; [discriminate|]).
    by apply elem_of_nil in Hin.
  - apply elem_of_cons in Hin as [Hin|Hin]; [discriminate|].
    apply elem_of_app in Hin as [Hin|Hin]; [by apply Hval in Hin|].
    apply elem_of_cons in Hin as [Hin|Hin]; [right; left; congruence|].
    repeat (apply elem_of_cons in Hin as [Hin|Hin]; [discriminate|]).
    by apply elem_of_nil in Hin.
  - apply Haw in Hin as [Hin|Hin]; auto.
  - apply elem_of_app in Hin as [Hin|Hin];
      [apply Haw in Hin as [Hin|Hin]; by auto|].
    apply elem_of_app in Hin as [Hin|Hin].
    { repeat (apply elem_of_cons in Hin as [Hin|Hin]; [discriminate|]).
      by apply elem_of_nil in Hin. }
    destruct Ha as [|e _ _|v _ _ Hv']; try by apply elem_of_nil in Hin.
    apply elem_of_app in Hin as [Hin|Hin].
    + apply elem_of_cons in Hin as [Hin|Hin]; [discriminate|].
      apply list_elem_of_singleton in Hin. do 3 right; left. congruence.
    + destruct (decide (version w ≠ v)); [|by apply elem_of_nil in Hin].
      do 4 right. eauto.
Qed.

Ltac same_world :=
  cbn [with_releases version Emph url_Parse json_Unmarshal
       settings_ReadSettings settings_SetToken validate_token template_Parse
       net_Listen getHost browser_OpenURL callback_hits] in *.

(** The result of [login] does not depend on the release endpoint. *)
Lemma login_outcome_ignores_probe (w : World) (latest : Response + error) :
  outcome (login (with_releases latest w)) = outcome (login w).
Proof.
  unfold login. same_world.
  destruct (settings_ReadSettings w) as [s|err]; [|reflexivity].
  change (isJwtTokenValid (with_releases latest w) (GetToken s))
    with (isJwtTokenValid w (GetToken s)).
  destruct (isJwtTokenValid_returns w (GetToken s)) as [b Hb].
  destruct (isJwtTokenValid w (GetToken s)) as [tv ov] eqn:Hv.
  go_simpl. subst ov. destruct b; [reflexivity|].
  unfold createCallbackServer, runServer. go_simpl. same_world.
  destruct (template_Parse w); [reflexivity|].
  destruct (net_Listen w) as [port|e]; [|reflexivity]. go_simpl.
  change (beginAuth (with_releases latest w) port) with (beginAuth w port).
  destruct (url_Parse w (getHost w)) as [u|e] eqn:Hu.
  2:{ by rewrite (beginAuth_unparsed w port e Hu). }
  rewrite (beginAuth_parsed w port u Hu).
  destruct (versionProbe_run w) as [v ->].
  destruct (versionProbe_run (with_releases latest w)) as [v' ->].
  unfold recv_jwtCh, server_Shutdown, upgrade_notice. go_simpl. same_world.
  destruct (callback_hits w) as [|r rest]; [reflexivity|]. go_simpl.
  destruct (decide (length (r :: rest) ≤ 2)%nat); [|reflexivity]. go_simpl.
  destruct (settings_SetToken w (handler r).1); [reflexivity|]. go_simpl.
  destruct (decide (version w ≠ v)), (decide (version w ≠ v')); reflexivity.
Qed.

(** C5: when the version probe fails (network error, status other than
    200, unreadable or malformed body, empty [latest] field) it puts the
    current [version] on the version channel; that is the value [login]
    receives there, so no line of the upgrade notice is printed, and the
    result of [login] is the one it has with any other answer of the
    release endpoint: the probe's error reaches nobody. *)
Theorem probe_failure_means_current (w : World) :
  ProbeFails w →
  versionProbe w =
    ([Get false "/releases/latest"; ChanSend versionChannel (version w)],
     Returns (version w))
  ∧ (∀ v, ChanRecv versionChannel v ∈ trace (login w) → v = version w)
  ∧ (∀ v e, e ∈ trace (upgrade_notice w v) → e ∉ trace (login w))
  ∧ (∀ latest, outcome (login (with_releases latest w)) = outcome (login w)).
Proof.
  intros Hfail. pose proof (versionProbe_failed w Hfail) as Hp.
  split; [exact Hp|]. split; [|split].
  - intros v Hin. apply version_received_is_sent in Hin.
    rewrite Hp in Hin. unfold outcome in Hin; simpl in Hin. congruence.
  - intros v e He Hin. unfold upgrade_notice in He. go_simpl.
    apply elem_of_cons in He as [->|He];
      [|apply elem_of_cons in He as [->|He];
        [|apply list_elem_of_singleton in He as ->]];
      apply login_stdout in Hin
        as [Hin|[Hin|[[u Hin]|[Hin|(v' & Hne & Hv' & _)]]]];
      try discriminate;
      rewrite Hp in Hv'; simpl in Hv'; congruence.
  - intros latest. apply login_outcome_ignores_probe.
Qed.

Lemma probe_failure_means_current_witness :
  StatusCode (response 503 "503 Service Unavailable" "") ≠ StatusOK
  ∧ versionProbe w_headless =
      ([Get false "/releases/latest"; ChanSend versionChannel "v0.1.0"],
       Returns "v0.1.0").
Proof.
  split; [discriminate|].
  apply (probe_failure_means_current w_headless).
  apply (BadStatus w_headless (response 503 "503 Service Unavailable" ""));
    [reflexivity|discriminate].
Defined.

(** ** The callback path *)

(** What [login] does with a world that lets it come to its receive. *)
Lemma login_callback_path (w : World) s port u r rest :
  settings_ReadSettings w = inl s →
  outcome (isJwtTokenValid w (GetToken s)) = Returns false →
  template_Parse w = None →
  net_Listen w = inl port →
  url_Parse w (getHost w) = inl u →
  callback_hits w = r :: rest →
  ∃ post,
    trace (login w) =
      awaiting w s port
      ++ [ChanRecv jwtCh (handler r).1; SetToken (handler r).1; Shutdown] ++ post
    ∧ AfterWrite w (handler r).1 post (outcome (login w)).
Proof.
  intros Hs Hv Ht Hl Hu Hh.
  destruct (login_path w) as [e He|s' Hs' Hv'|s' e Hs' Hv' Ht'|s' e Hs' Hv' Ht' Hl'
                             |s' port' e Hs' Hv' Ht' Hl' Hu'
                             |s' port' u' Hs' Hv' Ht' Hl' Hu' Hh'
                             |s' port' u' r' rest' post out Hs' Hv' Ht' Hl' Hu' Hh' Ha];
    try congruence.
  replace s' with s in * by congruence.
  replace port' with port in * by congruence.
  replace r' with r in * by congruence.
  by exists post.
Qed.

(** The value received on [jwtCh] is the one the first handler sent. *)
Lemma received_is_first_sent (w : World) (jwt : string) :
  ChanRecv jwtCh jwt ∈ trace (login w) →
  ∃ pre r rest post,
    callback_hits w = r :: rest ∧ jwt = (handler r).1
    ∧ trace (login w) =
        pre ++ [ChanRecv jwtCh jwt; SetToken jwt; Shutdown] ++ post
    ∧ Forall (λ e, is_quiet e = true) pre
    ∧ Forall (λ e, is_report e = true) post
    ∧ AfterWrite w jwt post (outcome (login w)).
Proof.
  intros Hin.
  destruct (login_shape w) as [Hq|(pre & r & rest & post & Hh & Ht & Hpre & Hpost & Ha)].
  { by apply (quiet_not_elem (ChanRecv jwtCh jwt)) in Hq. }
  assert (jwt = (handler r).1) as ->; [|by exists pre, r, rest, post].
  rewrite Ht in Hin.
  apply elem_of_app in Hin as [Hin|Hin];
    [by apply (quiet_not_elem (ChanRecv jwtCh jwt)) in Hpre|].
  apply elem_of_app in Hin as [Hin|Hin];
    [|by apply (report_not_elem (ChanRecv jwtCh jwt)) in Hpost].
  apply elem_of_cons in Hin as [Hin|Hin]; [congruence|].
  repeat (apply elem_of_cons in Hin as [Hin|Hin]; [discriminate|]).
  by apply elem_of_nil in Hin.
Qed.

(** ** C7: a callback without a token *)

(** C7: when the first callback request has no [jwt] parameter, or an
    empty one, its handler sends the empty string, [login] receives the
    empty string and writes it to the settings; the request is not turned
    into an error: if the write succeeds (and [Shutdown] returns)
    [login] returns nil. *)
Theorem empty_jwt_accepted (w : World) (r : Request) (rest : list Request) :
  callback_hits w = r :: rest →
  (Query r !! "jwt" = None ∨ ∃ more, Query r !! "jwt" = Some ("" :: more)) →
  (handler r).1 = ""
  ∧ (∀ jwt, ChanRecv jwtCh jwt ∈ trace (login w) →
       jwt = "" ∧ SetToken "" ∈ trace (login w))
  ∧ (∀ s port u,
       settings_ReadSettings w = inl s →
       outcome (isJwtTokenValid w (GetToken s)) = Returns false →
       template_Parse w = None →
       net_Listen w = inl port →
       url_Parse w (getHost w) = inl u →
       ChanRecv jwtCh "" ∈ trace (login w)
       ∧ SetToken "" ∈ trace (login w)
       ∧ (settings_SetToken w "" = None →
          (length (callback_hits w) ≤ 2)%nat →
          outcome (login w) = Returns None)).
Proof.
  intros Hh Hq.
  assert ((handler r).1 = "") as Hsent.
  { unfold handler, Values_Get; simpl.
    destruct Hq as [->|[more ->]]; reflexivity. }
  split; [exact Hsent|]. split.
  - intros jwt Hin.
    destruct (received_is_first_sent w jwt Hin)
      as (pre & r' & rest' & post & Hh' & -> & Ht & _).
    assert (r' = r) as -> by congruence.
    split; [exact Hsent|]. rewrite Ht, Hsent.
    apply elem_of_app; right. present.
  - intros s port u Hs Hv Ht Hl Hu.
    destruct (login_callback_path w s port u r rest Hs Hv Ht Hl Hu Hh)
      as (post & Htr & Ha).
    rewrite Hsent in *. rewrite Htr.
    split; [apply elem_of_app; right; present|].
    split; [apply elem_of_app; right; present|].
    intros Hset Hlen.
    destruct Ha as [Hgt|e _ Hset'|v _ _ _]; [lia|congruence|reflexivity].
Qed.

Lemma empty_jwt_accepted_witness :
  (handler empty_jwt).1 = ""
  ∧ ∀ jwt, ChanRecv jwtCh jwt ∈ trace (login w_headless) →
           jwt = "" ∧ SetToken "" ∈ trace (login w_headless).
Proof.
  assert (Query empty_jwt !! "jwt" = None
          ∨ ∃ more, Query empty_jwt !! "jwt" = Some ("" :: more)) as Hq.
  { right. exists []. reflexivity. }
  pose proof (empty_jwt_accepted w_headless empty_jwt [] eq_refl Hq) as H.
  exact (conj (proj1 H) (proj1 (proj2 H))).
Defined.

(** ** C8: the browser does not open *)

(** C8: whatever the port, when [browser.OpenURL] fails [beginAuth]
    prints the login URL it composed and returns nil; in [login] the
    flow then goes on to the receive on the callback channel. *)
Theorem beginAuth_open_failure_swallowed (w : World) (port : Z) (u : URL)
    (err : error) :
  url_Parse w (getHost w) = inl u →
  browser_OpenURL w (authUrl_for u port) = Some err →
  beginAuth w port =
    ([OpenURL (authUrl_for u port);
      Stdout ("Please open the following URL to login: "
              +:+ Emph w (authUrl_for u port) +:+ LF)],
     Returns None)
  ∧ (∀ s,
       settings_ReadSettings w = inl s →
       outcome (isJwtTokenValid w (GetToken s)) = Returns false →
       template_Parse w = None →
       net_Listen w = inl port →
       Stdout ("Please open the following URL to login: "
               +:+ Emph w (authUrl_for u port) +:+ LF) ∈ trace (login w)
       ∧ match callback_hits w with
         | [] => outcome (login w) = Blocks
         | r :: _ => ChanRecv jwtCh (handler r).1 ∈ trace (login w)
         end).
Proof.
  intros Hu Hopen.
  assert (beginAuth w port =
    ([OpenURL (authUrl_for u port);
      Stdout ("Please open the following URL to login: "
              +:+ Emph w (authUrl_for u port) +:+ LF)],
     Returns None)) as Hb.
  { rewrite (beginAuth_parsed w port u Hu), Hopen. reflexivity. }
  split; [exact Hb|].
  intros s Hs Hv Ht Hl.
  assert (Stdout ("Please open the following URL to login: "
                  +:+ Emph w (authUrl_for u port) +:+ LF) ∈ awaiting w s port)
    as Hprinted.
  { unfold awaiting. rewrite Hb. unfold trace at 2; simpl.
    apply list_elem_of_further, elem_of_app; right. present. }
  destruct (callback_hits w) as [|r rest] eqn:Hh.
  - destruct (login_path w) as [e He|s' Hs' Hv'|s' e Hs' Hv' Ht'|s' e Hs' Hv' Ht' Hl'
                               |s' port' e Hs' Hv' Ht' Hl' Hu'
                               |s' port' u' Hs' Hv' Ht' Hl' Hu' Hh'
                               |s' port' u' r' rest' post out Hs' Hv' Ht' Hl' Hu' Hh' Ha];
      try congruence.
    replace s' with s in * by congruence.
    replace port' with port in * by congruence.
    by split.
  - destruct (login_callback_path w s port u r rest Hs Hv Ht Hl Hu Hh)
      as (post & Htr & Ha).
    rewrite Htr. split.
    + by apply elem_of_app; left.
    + apply elem_of_app; right. present.
Qed.

Lemma beginAuth_open_failure_swallowed_witness :
  beginAuth w_headless 41234 =
    ([OpenURL "https://api.turso.example?port=41234&redirect=true";
      Stdout ("Please open the following URL to login: "
              +:+ "*https://api.turso.example?port=41234&redirect=true*" +:+ LF)],
     Returns None).
Proof.
  apply (beginAuth_open_failure_swallowed w_headless 41234
           {| Head := api; RawQuery := ""; Tail := "" |}
           (Err "exec: no display")); reflexivity.
Defined.

(** The query [beginAuth] attaches. *)
Lemma Values_Encode_port (p : string) :
  Values_Encode {[ "port" := [p]; "redirect" := ["true"] ]}
  = "port=" +:+ QueryEscape p +:+ "&redirect=true".
Proof. reflexivity. Qed.

(** ** What every event of a run tells *)

Lemma in_isJwtTokenValid (w : World) (tok : string) (e : Event) :
  e ∈ trace (isJwtTokenValid w tok) →
  e = Get true "/v2/validate/token" ∧ tok ≠ "".
Proof.
  destruct (decide (tok = "")) as [->|Hne].
  - intros Hin. by apply elem_of_nil in Hin.
  - rewrite (isJwtTokenValid_nonempty w tok Hne). intros Hin.
    by apply list_elem_of_singleton in Hin.
Qed.

Lemma in_beginAuth (w : World) (port : Z) (e : Event) :
  e ∈ trace (beginAuth w port) →
  ∃ u, url_Parse w (getHost w) = inl u
       ∧ (e = OpenURL (authUrl_for u port)
          ∨ e = Stdout ("Please open the following URL to login: "
                        +:+ Emph w (authUrl_for u port) +:+ LF)
            ∧ is_Some (browser_OpenURL w (authUrl_for u port))).
Proof.
  destruct (url_Parse w (getHost w)) as [u|err] eqn:Hu.
  - rewrite (beginAuth_parsed w port u Hu). unfold trace; simpl. intros Hin.
    exists u. split; [done|].
    apply elem_of_cons in Hin as [Hin|Hin]; [by left|].
    destruct (browser_OpenURL w (authUrl_for u port)) as [err|];
      [|by apply elem_of_nil in Hin].
    apply list_elem_of_singleton in Hin. right. split; [done|by eexists].
  - rewrite (beginAuth_unparsed w port err Hu). intros Hin.
    by apply elem_of_nil in Hin.
Qed.

Lemma in_versionProbe (w : World) (e : Event) :
  e ∈ trace (versionProbe w) →
  e = Get false "/releases/latest"
  ∨ ∃ v, e = ChanSend versionChannel v ∧ outcome (versionProbe w) = Returns v.
Proof.
  destruct (versionProbe_run w) as [v Hv]. rewrite Hv. unfold trace; simpl.
  intros Hin. apply elem_of_cons in Hin as [Hin|Hin]; [by left|].
  apply list_elem_of_singleton in Hin. right. by exists v.
Qed.

Ltac mem_cases H :=
  repeat match type of H with
         | _ ∈ _ :: _ => apply elem_of_cons in H as [H|H]
         | _ ∈ _ ++ _ => apply elem_of_app in H as [H|H]
         | _ ∈ [] => by apply elem_of_nil in H
         end.

(** Every event of a run of [login] is accounted for by the world. *)
Lemma login_event (w : World) (e : Event) :
  e ∈ trace (login w) → Told w e.
Proof.
  intros Hin.
  destruct (login_path w) as [err He|s Hs Hv|s err Hs Hv Ht|s err Hs Hv Ht Hl
                             |s port err Hs Hv Ht Hl Hu|s port u Hs Hv Ht Hl Hu Hh
                             |s port u r rest post out Hs Hv Ht Hl Hu Hh Ha];
    unfold awaiting in Hin; mem_cases Hin; subst;
    try (apply in_isJwtTokenValid in Hin as [-> Hne]);
    try (apply in_beginAuth in Hin as (u' & Hu' & [->|[-> _]]);
         assert (u' = u) as -> by congruence);
    try (apply in_versionProbe in Hin as [->|(v & -> & Hv')]);
    eauto using Told.
  destruct Ha as [|err _ _|v _ Hset Hv']; mem_cases Hin; subst;
    eauto using Told.
  destruct (decide (version w ≠ v)); [|by apply elem_of_nil in Hin].
  unfold upgrade_notice in Hin. do 2 go_simpl.
  mem_cases Hin; subst; constructor.
Qed.

(** ** C9: the received credential is written as it is *)

(** C9: on the callback path [login] writes exactly the value it
    received, right after receiving it, and writes nothing else to the
    settings. The validation endpoint is not asked about the new token:
    no validation request follows the write, and a validation request of
    the run comes before the receive and is made only when the stored
    token is not empty. The only other request of the run is the
    unauthenticated one to the release endpoint. *)
Theorem received_token_written_verbatim (w : World) (jwt : string) :
  ChanRecv jwtCh jwt ∈ trace (login w) →
  ∃ pre post,
    trace (login w) = pre ++ ChanRecv jwtCh jwt :: SetToken jwt :: post
    ∧ (∀ tok, SetToken tok ∉ pre)
    ∧ (∀ tok, SetToken tok ∉ post)
    ∧ (∀ auth, Get auth "/v2/validate/token" ∉ post)
    ∧ (∀ auth path, Get auth path ∈ trace (login w) →
         auth = true ∧ path = "/v2/validate/token"
         ∧ Get auth path ∈ pre
         ∧ (∃ s, settings_ReadSettings w = inl s ∧ GetToken s ≠ "")
         ∨ auth = false ∧ path = "/releases/latest").
Proof.
  intros Hin.
  destruct (received_is_first_sent w jwt Hin)
    as (pre & r & rest & post & _ & _ & Ht & Hpre & Hpost & _).
  assert (∀ auth, Get auth "/v2/validate/token" ∉ Shutdown :: post) as Hnone.
  { intros auth. apply not_elem_of_cons. split; [discriminate|].
    by apply report_not_elem. }
  exists pre, (Shutdown :: post).
  split; [exact Ht|]. split; [|split; [|split]].
  - intros tok. by apply quiet_not_elem.
  - intros tok. apply not_elem_of_cons. split; [discriminate|].
    by apply report_not_elem.
  - exact Hnone.
  - intros auth path Hget. pose proof (login_event w _ Hget) as Htold.
    inversion Htold; subst.
    + left. split; [done|]. split; [done|]. split; [|by eexists].
      rewrite Ht in Hget. apply elem_of_app in Hget as [Hget|Hget]; [done|].
      apply elem_of_cons in Hget as [Hget|Hget]; [discriminate|].
      apply elem_of_cons in Hget as [Hget|Hget]; [discriminate|].
      by apply Hnone in Hget.
    + by right.
Qed.

Lemma received_token_written_verbatim_witness :
  ∃ pre post,
    trace (login w_write_fails) =
      pre ++ ChanRecv jwtCh "abc123" :: SetToken "abc123" :: post
    ∧ (∀ tok, SetToken tok ∉ pre)
    ∧ (∀ tok, SetToken tok ∉ post)
    ∧ (∀ auth, Get auth "/v2/validate/token" ∉ post)
    ∧ (∀ auth path, Get auth path ∈ trace (login w_write_fails) →
         auth = true ∧ path = "/v2/validate/token"
         ∧ Get auth path ∈ pre
         ∧ (∃ s, settings_ReadSettings w_write_fails = inl s ∧ GetToken s ≠ "")
         ∨ auth = false ∧ path = "/releases/latest").
Proof.
  apply (received_token_written_verbatim w_write_fails "abc123").
  vm_compute. present.
Defined.

(** ** The goroutines around [jwtCh] *)

Lemma count_insert (f : Handler → bool) (hs : list Handler) (i : nat)
    (x y : Handler) :
  hs !! i = Some x →
  (length (filter (λ h, f h = true) (<[i := y]> hs)) + Nat.b2n (f x)
   = length (filter (λ h, f h = true) hs) + Nat.b2n (f y))%nat.
Proof.
  revert i. induction hs as [|h hs IH]; intros [|i] Hi; simpl in Hi; try done.
  - injection Hi as ->. simpl. rewrite !filter_cons.
    destruct (f x), (f y); simpl;
      repeat (destruct (decide _); try done); simpl; lia.
  - simpl. rewrite !filter_cons. specialize (IH i Hi).
    destruct (decide (f h = true)); simpl; lia.
Qed.

Lemma count_snoc (f : Handler → bool) (hs : list Handler) (h : Handler) :
  f h = false →
  length (filter (λ h, f h = true) (hs ++ [h]))
  = length (filter (λ h, f h = true) hs).
Proof.
  intros Hh. rewrite filter_app, length_app.
  rewrite filter_cons_False by (rewrite Hh; done). simpl. lia.
Qed.

Lemma count_lt (f : Handler → bool) (hs : list Handler) (i : nat)
    (x : Handler) :
  hs !! i = Some x → f x = false →
  (length (filter (λ h, f h = true) hs) < length hs)%nat.
Proof.
  intros Hi Hx. apply (length_filter_lt _ _ x).
  - by eapply list_elem_of_lookup_2.
  - rewrite Hx. done.
Qed.

Lemma done_le_past (hs : list Handler) :
  (done_count hs ≤ past_count hs ≤ length hs)%nat.
Proof.
  unfold done_count, past_count.
  induction hs as [|h hs IH]; [simpl; lia|].
  rewrite !filter_cons.
  destruct h; simpl; repeat (destruct (decide _); try done); simpl; lia.
Qed.

Lemma all_done_count (hs : list Handler) :
  forallb is_done hs = true → done_count hs = length hs.
Proof.
  unfold done_count. induction hs as [|[r|r|r] hs IH]; simpl; try done.
  intros H. rewrite ?filter_cons_True by done. simpl. f_equal. by apply IH.
Qed.

Lemma count_all_done (hs : list Handler) :
  done_count hs = length hs → forallb is_done hs = true.
Proof.
  unfold done_count. induction hs as [|h hs IH]; [done|].
  rewrite filter_cons.
  pose proof (length_filter (λ h, is_done h = true) hs).
  destruct h; simpl; repeat (destruct (decide _); try done); simpl;
    intros; try lia.
  apply IH. lia.
Qed.

Lemma some_running (hs : list Handler) :
  forallb is_done hs = false → ∃ i h, hs !! i = Some h ∧ is_done h = false.
Proof.
  induction hs as [|h hs IH]; simpl; [done|].
  destruct (is_done h) eqn:Hh; simpl.
  - intros H. destruct (IH H) as (i & h' & Hi & Hh'). by exists (S i), h'.
  - intros _. by exists 0%nat, h.
Qed.

(** *** The invariant: established, preserved *)

Lemma Inv_init (reqs : list Request) : Inv (length reqs) (init reqs).
Proof. constructor; simpl; try done. unfold jwtCh_cap. lia. Qed.

Section Invariant.

Context (n : nat).

Lemma Inv_step (a : Action) (s s' : System) :
  Inv n s → step a s = Next s' → Inv n s'.
Proof.
  intros [Hsent Hcap Hrecv Hpast Htotal Hlisten Hfin] Hstep.
  destruct a; simpl in Hstep.
  - (* Accept *)
    destruct (listening s) eqn:Hl; [|done].
    destruct (incoming s) as [|r rest] eqn:Hi; [done|].
    injection Hstep as <-. constructor; simpl; try done.
    + unfold past_count. by rewrite count_snoc.
    + rewrite length_app. simpl in *. lia.
    + unfold is_finished in *. simpl.
      destruct (orch s); done.
  - (* HandlerSend *)
    destruct (handlers s !! i) as [[r|r|r]|] eqn:Hi; try done.
    destruct (decide (length (chan_buf s) < jwtCh_cap)%nat) as [Hroom|]; [|done].
    injection Hstep as <-. constructor; simpl; try done.
    + by rewrite Hsent, app_assoc.
    + rewrite length_app. simpl. unfold jwtCh_cap in *. lia.
    + pose proof (count_insert past_send _ _ _ (Replying r) Hi) as Hc.
      unfold past_count in *. rewrite length_app. simpl in *. lia.
    + by rewrite length_insert.
    + intros Hf. apply Hfin in Hf.
      pose proof (count_lt is_done _ _ _ Hi eq_refl).
      unfold done_count in *. lia.
  - (* HandlerReply *)
    destruct (handlers s !! i) as [[r|r|r]|] eqn:Hi; try done.
    injection Hstep as <-. constructor; simpl; try done.
    + pose proof (count_insert past_send _ _ _ (Done r) Hi) as Hc.
      unfold past_count in *. simpl in *. lia.
    + by rewrite length_insert.
    + intros Hf. apply Hfin in Hf.
      pose proof (count_lt is_done _ _ _ Hi eq_refl).
      unfold done_count in *. lia.
  - (* Receive *)
    destruct (orch s) eqn:Ho; try done.
    destruct (chan_buf s) as [|v rest] eqn:Hb; [done|].
    injection Hstep as <-. constructor; simpl; try done.
    + by rewrite Hsent, <- app_assoc.
    + simpl in Hcap. lia.
    + by rewrite Hrecv.
  - (* Persist *)
    destruct (orch s) eqn:Ho; try done.
    injection Hstep as <-. by constructor.
  - (* CloseListener *)
    destruct (orch s) eqn:Ho; try done.
    injection Hstep as <-. by constructor.
  - (* Drained *)
    destruct (orch s) eqn:Ho; try done.
    destruct (forallb is_done (handlers s)) eqn:Hall; [|done].
    injection Hstep as <-. constructor; simpl; try done.
    intros _. by apply all_done_count.
Qed.

Lemma Inv_run (acts : list Action) (s s' : System) :
  Inv n s → run acts s = Next s' → Inv n s'.
Proof.
  revert s. induction acts as [|a acts IH]; intros s HI Hrun; simpl in Hrun.
  - by injection Hrun as <-.
  - destruct (step a s) as [s1|] eqn:Hstep; try done.
    eapply IH; [|exact Hrun]. by eapply Inv_step.
Qed.

(** *** The invariant: used *)

(** At most two sends ever go through: one value is received, one
    stays in the buffer. *)
Lemma Inv_sent_bound (s : System) :
  Inv n s → (length (sent s) ≤ 2)%nat.
Proof.
  intros [Hsent Hcap Hrecv _ _ _ _]. rewrite Hsent, length_app.
  unfold jwtCh_cap in Hcap.
  destruct (orch s); rewrite Hrecv; simpl; lia.
Qed.

(** [login] receives one value, the first that was sent. *)
Lemma Inv_single_delivery (s : System) :
  Inv n s →
  (length (received s) ≤ 1)%nat
  ∧ (orch s ≠ AwaitJwt → ∃ v, received s = [v] ∧ head (sent s) = Some v).
Proof.
  intros [Hsent _ Hrecv _ _ _ _]. split.
  - destruct (orch s); rewrite Hrecv; simpl; lia.
  - intros Hne. destruct (orch s) as [|v|v|v|v]; [done|..];
      exists v; rewrite Hsent, Hrecv; done.
Qed.

(** As long as no send went through, a send goes through at once. *)
Lemma Inv_first_send (s : System) (i : nat) (r : Request) :
  Inv n s → sent s = [] → handlers s !! i = Some (AtSend r) →
  ∃ s', step (HandlerSend i) s = Next s'.
Proof.
  intros [Hsent _ _ _ _ _ _] Hnone Hi. simpl.
  rewrite Hi. rewrite Hnone in Hsent.
  symmetry in Hsent. apply app_eq_nil in Hsent as [_ ->].
  rewrite decide_True by (unfold jwtCh_cap; simpl; lia). by eexists.
Qed.

(** [Shutdown] returns only if at most two requests were accepted. *)
Lemma Inv_finished (s : System) :
  Inv n s → is_finished s = true → (length (handlers s) ≤ 2)%nat.
Proof.
  intros HI Hf. pose proof (Inv_sent_bound s HI) as Hb.
  destruct HI as [_ _ _ Hpast _ _ Hfin].
  pose proof (done_le_past (handlers s)). rewrite <- Hpast in Hb.
  rewrite <- (Hfin Hf). lia.
Qed.

(** With one or two requests accepted, or still to be accepted, some
    goroutine can always move, until [Shutdown] has returned. *)
Lemma Inv_progress (s : System) :
  Inv n s →
  (handlers s ≠ [] ∨ incoming s ≠ []) →
  (length (handlers s) ≤ 2)%nat →
  progress s.
Proof.
  intros HI Hsome Htwo.
  pose proof HI as [Hsent Hcap Hrecv Hpast Htotal Hlisten Hfin].
  unfold progress, is_finished.
  destruct (orch s) as [|v|v|v|v] eqn:Ho; [| | | |by left]; right.
  - (* at the receive *)
    destruct (chan_buf s) as [|v buf] eqn:Hb.
    + rewrite Hrecv in Hsent. simpl in Hsent.
      destruct (handlers s) as [|h hs] eqn:Hh.
      * destruct (incoming s) as [|r rest] eqn:Hi; [by destruct Hsome|].
        exists Accept. eexists. simpl. by rewrite Hlisten, Ho, Hi.
      * destruct h as [r|r|r].
        -- exists (HandlerSend 0).
           apply (Inv_first_send s 0%nat r HI); [done|by rewrite Hh].
        -- rewrite Hsent in Hpast. unfold past_count in Hpast.
           by rewrite filter_cons_True in Hpast.
        -- rewrite Hsent in Hpast. unfold past_count in Hpast.
           by rewrite filter_cons_True in Hpast.
    + exists Receive. eexists. simpl. by rewrite Ho, Hb.
  - exists Persist. eexists. simpl. by rewrite Ho.
  - exists CloseListener. eexists. simpl. by rewrite Ho.
  - (* in Shutdown, waiting for the handlers *)
    destruct (forallb is_done (handlers s)) eqn:Hall.
    + exists Drained. eexists. simpl. by rewrite Ho, Hall.
    + destruct (some_running _ Hall) as (i & h & Hi & Hh).
      destruct h as [r|r|r]; [| |done].
      * exists (HandlerSend i). eexists. simpl. rewrite Hi.
        pose proof (count_lt past_send _ _ _ Hi eq_refl) as Hlt.
        unfold past_count in Hpast.
        rewrite Hsent, Hrecv, length_app in Hpast. simpl in Hpast.
        rewrite decide_True; [done|]. unfold jwtCh_cap. lia.
      * exists (HandlerReply i). eexists. simpl. by rewrite Hi.
Qed.

End Invariant.

(** One request, or two, and [Shutdown] returns. *)
Lemma one_hit_completes (r : Request) :
  run [Accept; HandlerSend 0; Receive; HandlerReply 0; Persist;
       CloseListener; Drained]
    (init [r])
  = Next {| chan_buf := []; incoming := [];
            listening := false; handlers := [Done r];
            orch := Finished (handler r).1;
            sent := [(handler r).1]; received := [(handler r).1] |}.
Proof. reflexivity. Qed.

Lemma two_hits_complete (r1 r2 : Request) :
  run [Accept; HandlerSend 0; Receive; HandlerReply 0; Accept; Persist;
       HandlerSend 1; CloseListener; HandlerReply 1; Drained]
    (init [r1; r2])
  = Next {| chan_buf := [(handler r2).1]; incoming := [];
            listening := false; handlers := [Done r1; Done r2];
            orch := Finished (handler r1).1;
            sent := [(handler r1).1; (handler r2).1];
            received := [(handler r1).1] |}.
Proof. reflexivity. Qed.

(** ** C6: what the callback server delivers *)

(** C6 fails on the code from the third request on. Three requests are
    accepted before [Shutdown] closes the listener: the first handler's
    value is received by [login], the second's fills the channel, and
    the third handler stays at its send, since [login] receives only
    once. No goroutine can move any more, so [Shutdown], which waits for
    that handler, never returns: [login] has written the token and
    called [Shutdown], and hangs there. *)
Theorem third_hit_deadlocks :
  run [Accept; HandlerSend 0; Receive; HandlerReply 0; Accept;
       HandlerSend 1; HandlerReply 1; Accept; Persist; CloseListener]
    (init [alice; favicon; favicon]) = Next third_parked
  ∧ handlers third_parked !! 2%nat = Some (AtSend favicon)
  ∧ ¬ progress third_parked
  ∧ (∀ acts s, run acts third_parked = Next s →
       s = third_parked ∧ is_finished s = false)
  ∧ login w_three_hits =
      ([ReadSettings; Stdout ("Waiting for authentication..." +:+ LF);
        ParseTemplate; Listen; Serve 41234;
        OpenURL "https://api.turso.example?port=41234&redirect=true";
        Get false "/releases/latest"; ChanSend versionChannel "v0.1.0";
        ChanRecv jwtCh "abc123"; SetToken "abc123"; Shutdown],
       Blocks).
Proof.
  assert (∀ a, step a third_parked = Disabled) as Hstuck.
  { intros [|i|i| | | |]; try reflexivity;
      destruct i as [|[|[|i]]]; reflexivity. }
  split; [vm_compute; reflexivity|]. split; [reflexivity|].
  split; [|split].
  - intros [Hf|(a & s' & Hstep)]; [discriminate|].
    by rewrite Hstuck in Hstep.
  - intros [|a acts] s Hrun; simpl in Hrun.
    + by injection Hrun as <-.
    + by rewrite Hstuck in Hrun.
  - vm_compute. reflexivity.
Qed.

(** * Further properties of auth.go *)

(** ** The [token] command *)

(** X1: when the stored token is non-empty and the validation endpoint
    answers 200, [token] reads the settings, asks the validation
    endpoint, prints the stored token and a newline, and returns nil.
    In no other case does it return nil or print anything; it never
    writes the settings and never blocks. *)
Theorem token_prints_valid_token (w : World) :
  (∀ s resp,
     settings_ReadSettings w = inl s → GetToken s ≠ "" →
     validate_token w = inl resp → StatusCode resp = StatusOK →
     tokenCmd w =
       ([ReadSettings; Get true "/v2/validate/token";
         Stdout (GetToken s +:+ LF)],
        Returns None))
  ∧ (outcome (tokenCmd w) = Returns None ↔
     ∃ s resp, settings_ReadSettings w = inl s ∧ GetToken s ≠ ""
               ∧ validate_token w = inl resp ∧ StatusCode resp = StatusOK)
  ∧ (∀ text, Stdout text ∈ trace (tokenCmd w) →
       outcome (tokenCmd w) = Returns None
       ∧ ∃ s, settings_ReadSettings w = inl s ∧ text = GetToken s +:+ LF)
  ∧ (∀ tok, SetToken tok ∉ trace (tokenCmd w))
  ∧ outcome (tokenCmd w) ≠ Blocks.
Proof.
  unfold tokenCmd.
  destruct (settings_ReadSettings w) as [s|err] eqn:Hs.
  2:{ go_simpl. split; [done|]. split; [|split; [|split]]; try done.
      - split; [done|]. by intros (s & resp & ? & _).
      - intros text Hin. apply list_elem_of_singleton in Hin. discriminate.
      - intros tok. absent. }
  destruct (decide (GetToken s = "")) as [He|Hne].
  { rewrite He, isJwtTokenValid_empty. go_simpl.
    split; [intros s' resp Hs' Hne'; congruence|].
    split; [|split; [|split]]; try done.
    - split; [done|]. intros (s' & resp & Hs' & Hne & _). congruence.
    - intros text Hin. apply list_elem_of_singleton in Hin. discriminate.
    - intros tok. absent. }
  rewrite (isJwtTokenValid_nonempty w _ Hne).
  destruct (validate_token w) as [resp|e] eqn:Hv.
  2:{ go_simpl. split; [done|]. split; [|split; [|split]]; try done.
      - split; [done|]. by intros (s' & resp & _ & _ & ? & _).
      - intros text Hin.
        repeat (apply elem_of_cons in Hin as [Hin|Hin]; [discriminate|]).
        by apply elem_of_nil in Hin.
      - intros tok. absent. }
  destruct (decide (StatusCode resp = StatusOK)) as [H200|Hnot].
  - rewrite bool_decide_true by done. go_simpl.
    split; [intros s' resp' Hs' _ _ _; by injection Hs' as <-|].
    split; [|split; [|split]]; try done.
    + split; [|done]. intros _. by exists s, resp.
    + intros text Hin.
      repeat (apply elem_of_cons in Hin as [Hin|Hin]; [discriminate|]).
      apply list_elem_of_singleton in Hin. injection Hin as ->.
      split; [done|]. by exists s.
    + intros tok. absent.
  - rewrite bool_decide_false by done. go_simpl.
    split; [intros s' resp' _ _ Hr H200; congruence|].
    split; [|split; [|split]]; try done.
    + split; [done|]. intros (s' & resp' & _ & _ & Hr & H200). congruence.
    + intros text Hin.
      repeat (apply elem_of_cons in Hin as [Hin|Hin]; [discriminate|]).
      by apply elem_of_nil in Hin.
    + intros tok. absent.
Qed.

Lemma token_prints_valid_token_witness :
  tokenCmd w_valid =
    ([ReadSettings; Get true "/v2/validate/token";
      Stdout ("old-token" +:+ LF)],
     Returns None).
Proof.
  apply (proj1 (token_prints_valid_token w_valid) {| token := "old-token" |}
           (response 200 "200 OK" "")); done.
Defined.

(** ** The [logout] command *)

(** X2: [logout] makes no request; it writes the settings exactly when a
    non-empty token is stored, and then it writes the empty token; it
    prints one of its two messages, never the token. *)
Theorem logout_clears_locally (w : World) :
  (∀ auth path, Get auth path ∉ trace (logout w))
  ∧ (∀ tok, SetToken tok ∈ trace (logout w) ↔
       tok = "" ∧ ∃ s, settings_ReadSettings w = inl s ∧ GetToken s ≠ "")
  ∧ (∀ text, Stdout text ∈ trace (logout w) →
       text = "No user logged in." +:+ LF ∨ text = "Logged out." +:+ LF)
  ∧ outcome (logout w) ≠ Blocks.
Proof.
  unfold logout.
  destruct (settings_ReadSettings w) as [s|err] eqn:Hs.
  2:{ go_simpl. split; [|split; [|split]]; try done.
      - intros auth path. absent.
      - intros tok. split.
        + intros Hin. apply list_elem_of_singleton in Hin. discriminate.
        + by intros (_ & s & ? & _).
      - intros text Hin. apply list_elem_of_singleton in Hin. discriminate. }
  destruct (decide (String.length (GetToken s) = 0%nat)) as [He|Hne]; go_simpl.
  - apply length_zero_empty in He.
    split; [|split; [|split]]; try done.
    + intros auth path. absent.
    + intros tok. split.
      * intros Hin.
        repeat (apply elem_of_cons in Hin as [Hin|Hin]; [discriminate|]).
        by apply elem_of_nil in Hin.
      * intros (_ & s' & Hs' & Hne). congruence.
    + intros text Hin.
      apply elem_of_cons in Hin as [Hin|Hin]; [discriminate|].
      apply list_elem_of_singleton in Hin. left. congruence.
  - rewrite length_zero_empty in Hne.
    split; [|split; [|split]]; try done.
    + intros auth path. absent.
    + intros tok. split.
      * intros Hin.
        apply elem_of_cons in Hin as [Hin|Hin]; [discriminate|].
        apply elem_of_cons in Hin as [Hin|Hin];
          [injection Hin as ->; split; [done|by exists s]|].
        apply list_elem_of_singleton in Hin. discriminate.
      * intros (-> & _). present.
    + intros text Hin.
      repeat (apply elem_of_cons in Hin as [Hin|Hin]; [discriminate|]).
      apply list_elem_of_singleton in Hin. right. congruence.
Qed.

(** ** More about the runs of [login] *)

(** X3: the steps of [login] come in the order of the code and each
    depends on the one before: the port is bound only once the page
    template parsed, the server serves on the port that was bound, the
    browser is sent to the login URL carrying that very port, the release
    endpoint is asked only once the login URL was composed, and the
    validation endpoint is asked only about a stored, non-empty token. *)
Theorem login_steps_depend (w : World) :
  (Listen ∈ trace (login w) → template_Parse w = None)
  ∧ (∀ port, Serve port ∈ trace (login w) → net_Listen w = inl port)
  ∧ (∀ target, OpenURL target ∈ trace (login w) →
       ∃ port u, net_Listen w = inl port ∧ url_Parse w (getHost w) = inl u
                 ∧ target = authUrl_for u port)
  ∧ (∀ auth path, Get auth path ∈ trace (login w) →
       auth = true ∧ path = "/v2/validate/token"
       ∧ (∃ s, settings_ReadSettings w = inl s ∧ GetToken s ≠ "")
       ∨ auth = false ∧ path = "/releases/latest"
         ∧ ∃ u, url_Parse w (getHost w) = inl u).
Proof.
  split; [|split; [|split]].
  - intros Hin. apply login_event in Hin. by inversion Hin.
  - intros port Hin. apply login_event in Hin. by inversion Hin.
  - intros target Hin. apply login_event in Hin. inversion Hin; subst.
    by eexists _, _.
  - intros auth path Hin. apply login_event in Hin. inversion Hin; subst.
    + left. eauto.
    + right. eauto.
Qed.

(** X4: [login] has no deadline. It never returns exactly when it came
    to wait for the callback (settings read, stored token not valid,
    template parsed, port bound, host parsed) and either no request ever
    reaches the callback server, or more than two do, so that [Shutdown]
    cannot finish. *)
Theorem login_waits_forever_iff (w : World) :
  outcome (login w) = Blocks ↔
  (∃ s port u,
      settings_ReadSettings w = inl s
      ∧ outcome (isJwtTokenValid w (GetToken s)) = Returns false
      ∧ template_Parse w = None
      ∧ net_Listen w = inl port
      ∧ url_Parse w (getHost w) = inl u)
  ∧ (callback_hits w = [] ∨ (2 < length (callback_hits w))%nat).
Proof.
  split.
  - intros Hb.
    destruct (login_path w) as [err He|s Hs Hv|s err Hs Hv Ht|s err Hs Hv Ht Hl
                               |s port err Hs Hv Ht Hl Hu|s port u Hs Hv Ht Hl Hu Hh
                               |s port u r rest post out Hs Hv Ht Hl Hu Hh Ha];
      try discriminate.
    + split; [by exists s, port, u|by left].
    + split; [by exists s, port, u|]. right.
      destruct Ha; try discriminate. done.
  - intros [(s & port & u & Hs & Hv & Ht & Hl & Hu) Hhits].
    destruct (callback_hits w) as [|r rest] eqn:Hh.
    + destruct (login_path w) as [err He|s' Hs' Hv'|s' err Hs' Hv' Ht'
                                 |s' err Hs' Hv' Ht' Hl'
                                 |s' port' err Hs' Hv' Ht' Hl' Hu'
                                 |s' port' u' Hs' Hv' Ht' Hl' Hu' Hh'
                                 |s' port' u' r' rest' post out Hs' Hv' Ht' Hl' Hu' Hh' Ha];
        congruence.
    + destruct Hhits as [?|Hlen]; [done|].
      destruct (login_callback_path w s port u r rest Hs Hv Ht Hl Hu Hh)
        as (post & _ & Ha).
      destruct Ha as [|err Hle _|v Hle _ _]; [done|..];
        rewrite Hh in Hle; lia.
Qed.

(** X5: [login] returns nil in two cases only: the stored token is
    still valid, or a callback arrived, the received token was written to
    the settings without error and [Shutdown] returned. *)
Theorem login_succeeds_iff (w : World) :
  outcome (login w) = Returns None ↔
  (∃ s, settings_ReadSettings w = inl s
        ∧ outcome (isJwtTokenValid w (GetToken s)) = Returns true)
  ∨ (∃ s port u r rest,
        settings_ReadSettings w = inl s
        ∧ outcome (isJwtTokenValid w (GetToken s)) = Returns false
        ∧ template_Parse w = None
        ∧ net_Listen w = inl port
        ∧ url_Parse w (getHost w) = inl u
        ∧ callback_hits w = r :: rest
        ∧ (length (callback_hits w) ≤ 2)%nat
        ∧ settings_SetToken w (Values_Get (Query r) "jwt") = None).
Proof.
  split.
  - intros Hb.
    destruct (login_path w) as [err He|s Hs Hv|s err Hs Hv Ht|s err Hs Hv Ht Hl
                               |s port err Hs Hv Ht Hl Hu|s port u Hs Hv Ht Hl Hu Hh
                               |s port u r rest post out Hs Hv Ht Hl Hu Hh Ha];
      try discriminate.
    + left. by exists s.
    + right. exists s, port, u, r, rest.
      destruct Ha as [|err _ _|v Hlen Hset _]; try discriminate.
      by repeat split.
  - intros [(s & Hs & Hv)|(s & port & u & r & rest & Hs & Hv & Ht & Hl & Hu & Hh & Hlen & Hset)].
    + destruct (login_path w) as [err He|s' Hs' Hv'|s' err Hs' Hv' Ht'
                                 |s' err Hs' Hv' Ht' Hl'
                                 |s' port' err Hs' Hv' Ht' Hl' Hu'
                                 |s' port' u' Hs' Hv' Ht' Hl' Hu' Hh'
                                 |s' port' u' r' rest' post out Hs' Hv' Ht' Hl' Hu' Hh' Ha];
        try congruence; try done;
        try (assert (s' = s) as -> by congruence; congruence).
    + destruct (login_callback_path w s port u r rest Hs Hv Ht Hl Hu Hh)
        as (post & _ & Ha).
      change ((handler r).1) with (Values_Get (Query r) "jwt") in Ha.
      destruct Ha as [Hgt|err _ Hset'|v _ _ _]; [lia|congruence|done].
Qed.

(** X6: once [login] has taken the probe's value [v] from the version
    channel it returns nil, and its output ends with the success line,
    followed by the three lines of the upgrade notice exactly when [v]
    differs, as a string, from the current version. *)
Theorem upgrade_notice_iff_differs (w : World) (v : string) :
  ChanRecv versionChannel v ∈ trace (login w) →
  outcome (login w) = Returns None
  ∧ ∃ pre,
      trace (login w) =
        pre ++ [ChanRecv versionChannel v; Stdout ("✔  Success!" +:+ LF)]
        ++ (if decide (version w ≠ v) then trace (upgrade_notice w v) else [])
      ∧ Shutdown ∈ pre.
Proof.
  intros Hin.
  destruct (login_shape w) as [Hq|(pre & r & rest & post & Hh & Ht & Hpre & Hpost & Ha)].
  { by apply (quiet_not_elem (ChanRecv versionChannel v)) in Hq. }
  rewrite Ht in Hin.
  apply elem_of_app in Hin as [Hin|Hin];
    [by apply (quiet_not_elem (ChanRecv versionChannel v)) in Hpre|].
  apply elem_of_app in Hin as [Hin|Hin].
  { repeat (apply elem_of_cons in Hin as [Hin|Hin]; [discriminate|]).
    by apply elem_of_nil in Hin. }
  destruct Ha as [|err _ _|v' _ _ Hv']; try by apply elem_of_nil in Hin.
  assert (v = v') as <-.
  { apply elem_of_app in Hin as [Hin|Hin].
    - apply elem_of_cons in Hin as [Hin|Hin]; [congruence|].
      apply list_elem_of_singleton in Hin. discriminate.
    - destruct (decide (version w ≠ v')); [|by apply elem_of_nil in Hin].
      unfold upgrade_notice in Hin. do 2 go_simpl.
      repeat (apply elem_of_cons in Hin as [Hin|Hin]; [discriminate|]).
      by apply elem_of_nil in Hin. }
  split; [done|].
  exists (pre ++ [ChanRecv jwtCh (handler r).1; SetToken (handler r).1; Shutdown]).
  split; [by rewrite Ht, <- app_assoc|].
  apply elem_of_app; right. present.
Qed.

Lemma upgrade_notice_iff_differs_witness :
  outcome (login w_fresh) = Returns None
  ∧ ∃ pre,
      trace (login w_fresh) =
        pre ++ [ChanRecv versionChannel "v0.2.0"; Stdout ("✔  Success!" +:+ LF)]
        ++ (if decide (version w_fresh ≠ "v0.2.0")
            then trace (upgrade_notice w_fresh "v0.2.0") else [])
      ∧ Shutdown ∈ pre.
Proof.
  apply (upgrade_notice_iff_differs w_fresh "v0.2.0").
  vm_compute. present.
Defined.

(** X7: the version probe makes one request and one send. What it sends
    is the current version, or else the [latest] field decoded from a
    readable body of a 200 answer, and then that field is not empty. *)
Theorem probe_sends_current_or_latest (w : World) :
  ∃ v,
    versionProbe w =
      ([Get false "/releases/latest"; ChanSend versionChannel v], Returns v)
    ∧ (v = version w
       ∨ v ≠ ""
         ∧ ∃ resp body,
             releases_latest w = inl resp ∧ StatusCode resp = StatusOK
             ∧ Body resp = inl body ∧ json_Unmarshal w body = inl v).
Proof.
  unfold versionProbe, fetchLatestVersion. go_simpl.
  destruct (releases_latest w) as [resp|e] eqn:Hr;
    [|eexists; split; [reflexivity|by left]].
  destruct (decide (StatusCode resp ≠ StatusOK)) as [|H200];
    [eexists; split; [reflexivity|by left]|].
  apply dec_stable in H200.
  destruct (Body resp) as [body|e] eqn:Hb;
    [|eexists; split; [reflexivity|by left]].
  destruct (json_Unmarshal w body) as [v|e] eqn:Hj;
    [|eexists; split; [reflexivity|by left]].
  destruct (decide (String.length v = 0%nat)) as [|Hne];
    [eexists; split; [reflexivity|by left]|].
  exists v. split; [reflexivity|]. right.
  rewrite length_zero_empty in Hne. split; [done|]. by exists resp, body.
Qed.

(** X8: [server.Shutdown] is called only on a server that was started,
    and only after a credential was taken from the callback channel and
    handed to the settings. *)
Theorem shutdown_only_after_receive (w : World) :
  Shutdown ∈ trace (login w) →
  ∃ port jwt,
    net_Listen w = inl port
    ∧ precedes (Serve port) (ChanRecv jwtCh jwt) (trace (login w))
    ∧ precedes (ChanRecv jwtCh jwt) (SetToken jwt) (trace (login w))
    ∧ precedes (SetToken jwt) Shutdown (trace (login w)).
Proof.
  intros Hin.
  destruct (login_path w) as [err He|s Hs Hv|s err Hs Hv Ht|s err Hs Hv Ht Hl
                             |s port err Hs Hv Ht Hl Hu|s port u Hs Hv Ht Hl Hu Hh
                             |s port u r rest post out Hs Hv Ht Hl Hu Hh Ha].
  1-5: exfalso; mem_cases Hin; try discriminate;
       by apply in_isJwtTokenValid in Hin as [? _].
  - exfalso. by apply (quiet_not_elem Shutdown) in Hin;
      [|apply awaiting_quiet|].
  - exists port, (handler r).1. split; [done|].
    assert (Serve port ∈ awaiting w s port) as Hserve.
    { unfold awaiting. apply list_elem_of_further, elem_of_app; right.
      apply elem_of_app; left. present. }
    apply list_elem_of_lookup_1 in Hserve as [i Hi].
    pose proof (lookup_lt_Some _ _ _ Hi) as Hlt.
    set (n := length (awaiting w s port)) in *.
    assert (∀ k e, [ChanRecv jwtCh (handler r).1; SetToken (handler r).1; Shutdown]
                     !! k = Some e →
                   (awaiting w s port
                    ++ [ChanRecv jwtCh (handler r).1; SetToken (handler r).1; Shutdown]
                    ++ post) !! (n + k)%nat = Some e) as Hmid.
    { intros k e Hk. rewrite lookup_app_r by lia.
      replace (n + k - length (awaiting w s port))%nat with k by lia.
      by apply lookup_app_l_Some. }
    split; [|split].
    + exists i, (n + 0)%nat. split; [lia|]. split; [|by apply Hmid].
      by apply lookup_app_l_Some.
    + exists (n + 0)%nat, (n + 1)%nat. split; [lia|]. split; by apply Hmid.
    + exists (n + 1)%nat, (n + 2)%nat. split; [lia|]. split; by apply Hmid.
Qed.

Lemma shutdown_only_after_receive_witness :
  ∃ port jwt,
    net_Listen w_write_fails = inl port
    ∧ precedes (Serve port) (ChanRecv jwtCh jwt) (trace (login w_write_fails))
    ∧ precedes (ChanRecv jwtCh jwt) (SetToken jwt) (trace (login w_write_fails))
    ∧ precedes (SetToken jwt) Shutdown (trace (login w_write_fails)).
Proof.
  apply (shutdown_only_after_receive w_write_fails).
  vm_compute. present.
Defined.

(** ** The login URL *)

Lemma QueryEscape_unreserved (s : string) :
  unreserved_only s = true → QueryEscape s = s.
Proof.
  induction s as [|c s IH]; simpl; [done|].
  intros [Hc Hs]%andb_prop. rewrite Hc. f_equal. by apply IH.
Qed.

Lemma pretty_N_go_unreserved (x : N) (s : string) :
  unreserved_only s = true → unreserved_only (pretty_N_go x s) = true.
Proof.
  revert s. induction (N.lt_wf_0 x) as [x _ IH]; intros s Hs.
  assert (x = 0 ∨ 0 < x)%N as [->|Hpos] by lia.
  - by rewrite pretty_N_go_0.
  - rewrite pretty_N_go_step by done. apply IH; [by apply N.div_lt|].
    simpl. rewrite Hs, andb_true_r.
    unfold pretty_N_char. by repeat case_match.
Qed.

Lemma Itoa_unreserved (n : Z) : unreserved_only (Itoa n) = true.
Proof.
  unfold Itoa, pretty, pretty_Z. destruct n as [|p|p]; [done|..];
    unfold pretty, pretty_positive, pretty, pretty_N;
    (destruct (decide (N.pos p = 0%N)); [done|]).
  - by apply pretty_N_go_unreserved.
  - simpl. by apply pretty_N_go_unreserved.
Qed.

Lemma append_cons (c : ascii) (a b : string) :
  String c a +:+ b = String c (a +:+ b).
Proof. reflexivity. Qed.

Lemma append_length (a b : string) :
  String.length (a +:+ b) = (String.length a + String.length b)%nat.
Proof.
  induction a as [|c a IH]; [done|]. rewrite append_cons. simpl. by rewrite IH.
Qed.

Lemma append_assoc_r (a b c : string) : (a +:+ b) +:+ c = a +:+ (b +:+ c).
Proof.
  induction a as [|x a IH]; [done|]. rewrite !append_cons. by rewrite IH.
Qed.

Lemma append_inj_l (p a b : string) : p +:+ a = p +:+ b → a = b.
Proof.
  induction p as [|c p IH]; [done|]. rewrite !append_cons.
  intros [= H]. by apply IH.
Qed.

Lemma append_inj_r (a b r : string) : a +:+ r = b +:+ r → a = b.
Proof.
  intros H. assert (String.length a = String.length b) as Hlen.
  { apply (f_equal String.length) in H. rewrite !append_length in H. lia. }
  revert b H Hlen. induction a as [|c a IH]; intros [|d b] H Hlen;
    simpl in Hlen; try done.
  rewrite !append_cons in H.
  injection H as -> H. f_equal. apply IH; [done|lia].
Qed.

Lemma authUrl_for_eq (u : URL) (port : Z) :
  authUrl_for u port =
    Head u +:+ "?port=" +:+ Itoa port +:+ "&redirect=true" +:+ Tail u.
Proof.
  unfold authUrl_for, URL_String; cbn [Head RawQuery Tail].
  rewrite Values_Encode_port, (QueryEscape_unreserved _ (Itoa_unreserved port)).
  destruct (decide (_ = "")) as [E|_]; [simpl in E; discriminate|].
  f_equal. rewrite !append_assoc_r. reflexivity.
Qed.

(** X9: whatever the port, [beginAuth] sends the browser to the parsed
    host with the query [port=<decimal port>&redirect=true]: a query the
    host string carried is replaced, nothing is escaped in the port, and
    two different ports never give the same URL. *)
Theorem beginAuth_url (w : World) (port : Z) (u : URL) :
  url_Parse w (getHost w) = inl u →
  (∃ rest,
      trace (beginAuth w port) =
        OpenURL (Head u +:+ "?port=" +:+ Itoa port +:+ "&redirect=true"
                 +:+ Tail u) :: rest)
  ∧ (∀ port', authUrl_for u port = authUrl_for u port' → port = port').
Proof.
  intros Hu. split.
  - rewrite (beginAuth_parsed w port u Hu), authUrl_for_eq.
    unfold trace; simpl. by eexists.
  - intros port' H. rewrite !authUrl_for_eq in H.
    apply append_inj_l in H. apply (append_inj_l "?port=") in H.
    apply append_inj_r in H. by apply (inj pretty) in H.
Qed.

Lemma beginAuth_url_witness :
  ∃ rest,
    trace (beginAuth w_fresh 41234) =
      OpenURL (Head {| Head := api; RawQuery := ""; Tail := "" |}
               +:+ "?port=" +:+ Itoa 41234 +:+ "&redirect=true"
               +:+ Tail {| Head := api; RawQuery := ""; Tail := "" |}) :: rest.
Proof.
  apply (beginAuth_url w_fresh 41234 {| Head := api; RawQuery := ""; Tail := "" |}).
  reflexivity.
Defined.

(** ** Requests and values in the goroutine system *)

Lemma served_insert (hs : list Handler) (i : nat) (x y : Handler) :
  hs !! i = Some x → served y = served x →
  served <$> <[i := y]> hs = served <$> hs.
Proof.
  intros Hi Hy. rewrite list_fmap_insert.
  apply list_insert_id. by rewrite list_lookup_fmap, Hi, Hy.
Qed.

(** A handler that moves on stays past its send, for the same
    request. *)
Lemma past_insert (hs : list Handler) (i : nat) (x y h : Handler) :
  hs !! i = Some x → served y = served x → past_send y = true →
  h ∈ hs → past_send h = true →
  ∃ h', h' ∈ <[i := y]> hs ∧ past_send h' = true ∧ served h' = served h.
Proof.
  intros Hi Hy Hp Hin Hh. apply list_elem_of_lookup_1 in Hin as [j Hj].
  destruct (decide (j = i)) as [->|Hne].
  - exists y. rewrite Hi in Hj. injection Hj as <-. split; [|done].
    apply (list_elem_of_lookup_2 _ i). apply list_lookup_insert_eq.
    by eapply lookup_lt_Some.
  - exists h. split; [|done]. apply (list_elem_of_lookup_2 _ j).
    by rewrite list_lookup_insert_ne.
Qed.

(** Requests pass through the accept loop one by one, in order, and
    each value sent comes from a handler that is past its send. *)
Lemma step_keeps_requests (reqs : list Request) (a : Action) (s s' : System) :
  (served <$> handlers s) ++ incoming s = reqs →
  (∀ v, v ∈ sent s →
     ∃ h, h ∈ handlers s ∧ past_send h = true ∧ v = (handler (served h)).1) →
  step a s = Next s' →
  (served <$> handlers s') ++ incoming s' = reqs
  ∧ (∀ v, v ∈ sent s' →
       ∃ h, h ∈ handlers s' ∧ past_send h = true
            ∧ v = (handler (served h)).1).
Proof.
  intros Hreqs Hsent Hstep. destruct a; simpl in Hstep.
  - destruct (listening s); [|done].
    destruct (incoming s) as [|r rest] eqn:Hi; [done|].
    injection Hstep as <-. simpl. split.
    + by rewrite fmap_app, <- app_assoc.
    + intros v Hv. destruct (Hsent v Hv) as (h & Hh & Hp & ->).
      exists h. split; [|done]. apply elem_of_app. by left.
  - destruct (handlers s !! i) as [[r|r|r]|] eqn:Hi; try done.
    destruct (decide _); [|done].
    injection Hstep as <-. simpl. split.
    + by rewrite (served_insert _ _ _ _ Hi).
    + intros v Hv. apply elem_of_app in Hv as [Hv|Hv].
      * destruct (Hsent v Hv) as (h & Hh & Hp & ->).
        destruct (past_insert _ _ _ (Replying r) _ Hi eq_refl eq_refl Hh Hp)
          as (h' & Hh' & Hp' & Hs').
        exists h'. by rewrite Hs'.
      * apply list_elem_of_singleton in Hv as ->. exists (Replying r).
        split; [|done].
        apply (list_elem_of_lookup_2 _ i). apply list_lookup_insert_eq.
        by eapply lookup_lt_Some.
  - destruct (handlers s !! i) as [[r|r|r]|] eqn:Hi; try done.
    injection Hstep as <-. simpl. split.
    + by rewrite (served_insert _ _ _ _ Hi).
    + intros v Hv. destruct (Hsent v Hv) as (h & Hh & Hp & ->).
      destruct (past_insert _ _ _ (Done r) _ Hi eq_refl eq_refl Hh Hp)
        as (h' & Hh' & Hp' & Hs').
      exists h'. by rewrite Hs'.
  - destruct (orch s); try done.
    destruct (chan_buf s); [done|]. by injection Hstep as <-.
  - destruct (orch s); try done. by injection Hstep as <-.
  - destruct (orch s); try done. by injection Hstep as <-.
  - destruct (orch s); try done.
    destruct (forallb is_done (handlers s)); [|done]. by injection Hstep as <-.
Qed.

Lemma run_keeps_requests (reqs : list Request) (acts : list Action)
    (s s' : System) :
  (served <$> handlers s) ++ incoming s = reqs →
  (∀ v, v ∈ sent s →
     ∃ h, h ∈ handlers s ∧ past_send h = true ∧ v = (handler (served h)).1) →
  run acts s = Next s' →
  (served <$> handlers s') ++ incoming s' = reqs
  ∧ (∀ v, v ∈ sent s' →
       ∃ h, h ∈ handlers s' ∧ past_send h = true
            ∧ v = (handler (served h)).1).
Proof.
  revert s. induction acts as [|a acts IH]; intros s Hreqs Hsent Hrun;
    simpl in Hrun.
  - by injection Hrun as <-.
  - destruct (step a s) as [s1|] eqn:Hstep; try done.
    destruct (step_keeps_requests reqs a s s1 Hreqs Hsent Hstep) as [H1 H2].
    by apply (IH s1).
Qed.

(** X11: however the goroutines interleave, any value [login] has
    received is the [jwt] parameter of one of the requests that were
    made, and the server accepted that request and its handler is past
    its send: it is writing its answer, or has returned. *)
Theorem callback_values_come_from_requests (reqs : list Request)
    (acts : list Action) (s : System) :
  run acts (init reqs) = Next s →
  ∀ v, v ∈ received s →
    ∃ r, r ∈ reqs
         ∧ (Replying r ∈ handlers s ∨ Done r ∈ handlers s)
         ∧ v = Values_Get (Query r) "jwt".
Proof.
  intros Hrun v Hv.
  destruct (run_keeps_requests reqs acts (init reqs) s) as [H1 H2];
    [done|by intros v' Hv'; apply elem_of_nil in Hv'|done|].
  pose proof (Inv_run _ _ _ _ (Inv_init reqs) Hrun) as [Hsent _ _ _ _ _ _].
  destruct (H2 v) as (h & Hh & Hp & ->).
  { rewrite Hsent. apply elem_of_app. by left. }
  exists (served h). split; [|split; [|done]].
  - rewrite <- H1. apply elem_of_app. left.
    by apply (list_elem_of_fmap_2 served).
  - destruct h as [r|r|r]; [done|by left|by right].
Qed.

Lemma callback_values_come_from_requests_witness :
  ∃ r, r ∈ [alice; favicon]
       ∧ (Replying r ∈ handlers served_twice ∨ Done r ∈ handlers served_twice)
       ∧ "abc123" = Values_Get (Query r) "jwt".
Proof.
  apply (callback_values_come_from_requests [alice; favicon]
           [Accept; HandlerSend 0; Receive; HandlerReply 0; Accept;
            HandlerSend 1] served_twice).
  - vm_compute. reflexivity.
  - simpl. apply list_elem_of_here.
Defined.

(** X12: when [Shutdown] has returned, the listener is closed, one or
    two requests were accepted and each of them got its answer; [login]
    holds the value sent first, and if there was a second request its
    value is still in the channel, read by nobody. *)
Theorem shutdown_returned_means (reqs : list Request) (acts : list Action)
    (s : System) (jwt : string) :
  run acts (init reqs) = Next s →
  orch s = Finished jwt →
  listening s = false
  ∧ forallb is_done (handlers s) = true
  ∧ (1 ≤ length (handlers s) ≤ 2)%nat
  ∧ head (sent s) = Some jwt
  ∧ sent s = jwt :: chan_buf s
  ∧ length (chan_buf s) = (length (handlers s) - 1)%nat.
Proof.
  intros Hrun Ho.
  pose proof (Inv_run _ _ _ _ (Inv_init reqs) Hrun)
    as [Hsent Hcap Hrecv Hpast _ Hlisten Hfin].
  rewrite Ho in Hrecv, Hlisten.
  assert (done_count (handlers s) = length (handlers s)) as Hall.
  { apply Hfin. unfold is_finished. by rewrite Ho. }
  pose proof (done_le_past (handlers s)) as Hle.
  rewrite Hrecv in Hsent. simpl in Hsent.
  rewrite Hsent in Hpast. simpl in Hpast. unfold jwtCh_cap in Hcap.
  split; [done|]. split; [by apply count_all_done|].
  split; [lia|]. split; [by rewrite Hsent|]. split; [done|]. lia.
Qed.

Lemma shutdown_returned_means_witness :
  run [Accept; HandlerSend 0; Receive; HandlerReply 0; Accept; Persist;
       HandlerSend 1; CloseListener; HandlerReply 1; Drained]
    (init [alice; favicon])
    = Next {| chan_buf := [""]; incoming := [];
              listening := false; handlers := [Done alice; Done favicon];
              orch := Finished "abc123";
              sent := ["abc123"; ""]; received := ["abc123"] |}
  ∧ length [""] = (length [Done alice; Done favicon] - 1)%nat.
Proof.
  assert (run [Accept; HandlerSend 0; Receive; HandlerReply 0; Accept; Persist;
               HandlerSend 1; CloseListener; HandlerReply 1; Drained]
            (init [alice; favicon])
          = Next {| chan_buf := [""]; incoming := [];
                    listening := false; handlers := [Done alice; Done favicon];
                    orch := Finished "abc123";
                    sent := ["abc123"; ""]; received := ["abc123"] |}) as Hrun.
  { vm_compute. reflexivity. }
  split; [exact Hrun|].
  exact (proj2 (proj2 (proj2 (proj2 (proj2
    (shutdown_returned_means _ _ _ "abc123" Hrun eq_refl)))))).
Defined.

(** * account_show.go *)

Section AccountShowProofs.

Context {T : Turso}.

(** ** The first loop *)

(** When the first loop runs to its end, the token and the instances of
    database number [k] sit at index [k] of [dbTokens] and
    [dbInstances]. *)
Lemma gather_done (c : Cloud) (dbs : list Database) :
  ∀ idx g0 calls g,
    gather c idx dbs g0 = (calls, inl g) →
    ∃ toks insts,
      dbTokens g = dbTokens g0 ++ toks
      ∧ dbInstances g = dbInstances g0 ++ insts
      ∧ length toks = length dbs ∧ length insts = length dbs
      ∧ (∀ k db, dbs !! k = Some db →
           ∃ tok instances,
             toks !! k = Some tok ∧ insts !! k = Some instances
             ∧ Databases_Token c (idx + k) (Name db) "1d" true = inl tok
             ∧ Instances_List c (idx + k) (Name db) = inl instances)
      ∧ instanceCount g = (instanceCount g0 + sum_list (length <$> insts))%nat
      ∧ numLocations g = (numLocations g0 + total_regions dbs)%nat
      ∧ Forall (λ e, is_print e = false) calls
      ∧ (∀ url tok region d, Inspect url tok region d ∉ calls).
Proof.
  induction dbs as [|db dbs IH]; intros idx g0 calls g Hg; simpl in Hg.
  - injection Hg as <- <-. exists [], [].
    rewrite !app_nil_r. unfold total_regions. simpl.
    repeat split; try done; try lia.
    intros ????. apply not_elem_of_nil.
  - destruct (Instances_List c idx (Name db)) as [instances|err] eqn:Hi;
      [|done].
    destruct (Databases_Token c idx (Name db) "1d" true) as [tok|err] eqn:Ht;
      [|done].
    destruct (gather c (S idx) dbs _) as [calls' r] eqn:Hrec.
    injection Hg as <- ->.
    destruct (IH _ _ _ _ Hrec)
      as (toks & insts & Htoks & Hinsts & Hl1 & Hl2 & Hk & Hcount & Hloc & Hpr & Hni).
    simpl in *. exists (tok :: toks), (instances :: insts).
    rewrite Htoks, Hinsts, <- !app_assoc. simpl.
    split; [done|]. split; [done|]. split; [lia|]. split; [lia|].
    split; [|split; [|split; [|split]]].
    + intros [|k] db' Hdb; simpl in Hdb.
      * injection Hdb as <-. exists tok, instances.
        by rewrite Nat.add_0_r.
      * destruct (Hk k db' Hdb) as (tok' & is' & ? & ? & ? & ?).
        exists tok', is'. by rewrite <- Nat.add_succ_comm.
    + change (list_fmap _ _ length insts) with (length <$> insts). lia.
    + unfold total_regions in *. simpl.
      change (list_fmap _ _ ?f dbs) with (f <$> dbs). lia.
    + by repeat constructor.
    + intros url tk region d.
      apply not_elem_of_cons; split; [discriminate|].
      apply not_elem_of_cons; split; [discriminate|]. apply Hni.
Qed.

(** When the first loop stops, it stops at the first call that failed
    and returns its error. *)
Lemma gather_failed (c : Cloud) (dbs : list Database) :
  ∀ idx g0 calls err,
    gather c idx dbs g0 = (calls, inr err) →
    (∃ k db, dbs !! k = Some db
             ∧ (Instances_List c (idx + k) (Name db) = inr err
                ∨ Databases_Token c (idx + k) (Name db) "1d" true = inr err))
    ∧ Forall (λ e, is_print e = false) calls
    ∧ (∀ url tok region d, Inspect url tok region d ∉ calls).
Proof.
  induction dbs as [|db dbs IH]; intros idx g0 calls err Hg; simpl in Hg;
    [done|].
  destruct (Instances_List c idx (Name db)) as [instances|e] eqn:Hi.
  2:{ injection Hg as <- <-. split; [|split].
      - exists 0%nat, db. rewrite Nat.add_0_r. by split; [|left].
      - by repeat constructor.
      - intros ????. absent. }
  destruct (Databases_Token c idx (Name db) "1d" true) as [tok|e] eqn:Ht.
  2:{ injection Hg as <- <-. split; [|split].
      - exists 0%nat, db. rewrite Nat.add_0_r. by split; [|right].
      - by repeat constructor.
      - intros ????. absent. }
  destruct (gather c (S idx) dbs _) as [calls' r] eqn:Hrec.
  injection Hg as <- ->.
  destruct (IH _ _ _ _ Hrec) as ((k & db' & Hdb & Hor) & Hpr & Hni).
  split; [|split].
  - exists (S k), db'. rewrite <- Nat.add_succ_comm. by split.
  - by repeat constructor.
  - intros url tk region d.
    apply not_elem_of_cons; split; [discriminate|].
    apply not_elem_of_cons; split; [discriminate|]. apply Hni.
Qed.

(** ** The goroutines *)

Lemma tasks_done (c : Cloud) (settings : Settings) (cap : nat)
    (tokens : list string) (idx : nat) (db : Database) (tok : string)
    (instances : list DbInstance) :
  tokens !! idx = Some tok →
  ∀ st, g_panic st = false →
    let st' := foldl (inspect_task c settings cap tokens idx db) st instances in
    g_panic st' = false
    ∧ g_calls st' =
        g_calls st
        ++ ((λ inst, Inspect (getInstanceHttpUrl settings db inst) tok
                       (Region inst) false) <$> instances)
    ∧ g_started st' = (g_started st + length instances)%nat
    ∧ (length (g_buf st') ≤ length (g_buf st) + length instances)%nat
    ∧ (g_stuck st = false →
       (length (g_buf st) + length instances ≤ cap)%nat →
       g_stuck st' = false
       ∧ (length (g_buf st') + length (g_errs st')
          = length (g_buf st) + length (g_errs st) + length instances)%nat).
Proof.
  intros Htok. induction instances as [|inst instances IH]; intros st Hp.
  - simpl. rewrite app_nil_r.
    split; [done|]. split; [done|]. split; [lia|]. split; [lia|].
    intros Hstuck _. split; [done|lia].
  - simpl. set (st1 := inspect_task c settings cap tokens idx db st inst).
    assert (g_panic st1 = false
            ∧ g_calls st1 =
                g_calls st ++ [Inspect (getInstanceHttpUrl settings db inst)
                                 tok (Region inst) false]
            ∧ g_started st1 = S (g_started st)
            ∧ (length (g_buf st1) ≤ S (length (g_buf st)))%nat
            ∧ (g_stuck st = false → (length (g_buf st) < cap)%nat →
               g_stuck st1 = false
               ∧ (length (g_buf st1) + length (g_errs st1)
                  = S (length (g_buf st) + length (g_errs st)))%nat))
      as (Hp1 & Hc1 & Hs1 & Hb1 & Hok1).
    { subst st1. unfold inspect_task. rewrite Hp, Htok.
      destruct (inspect c _ _ _ _ _) as [ret|err]; simpl.
      - destruct (decide _) as [Hroom|Hfull]; simpl.
        + rewrite !length_app. simpl. repeat split; try done; lia.
        + repeat split; try done; try lia.
      - rewrite !length_app. simpl. repeat split; try done; lia. }
    destruct (IH st1 Hp1) as (Hp' & Hc' & Hs' & Hb' & Hok').
    split; [done|]. split; [by rewrite Hc', Hc1, <- app_assoc|].
    split; [lia|]. split; [lia|].
    intros Hstuck Hcap.
    destruct (Hok1 Hstuck) as [Hst1 Hlen1]; [lia|].
    destruct (Hok' Hst1) as [Hst' Hlen']; [lia|].
    split; [done|lia].
Qed.

Lemma launch_done (c : Cloud) (settings : Settings) (g : Gathered)
    (dbs : list Database) :
  ∀ idx toks insts st,
    length toks = length dbs → length insts = length dbs →
    (∀ k, (k < length dbs)%nat →
          dbTokens g !! (idx + k)%nat = toks !! k
          ∧ dbInstances g !! (idx + k)%nat = insts !! k) →
    g_panic st = false →
    let st' := launch c settings g idx dbs st in
    g_panic st' = false
    ∧ g_calls st' = g_calls st ++ inspect_calls settings dbs toks insts
    ∧ (length (g_buf st') ≤ length (g_buf st) + sum_list (length <$> insts))%nat
    ∧ (g_stuck st = false →
       (length (g_buf st) + sum_list (length <$> insts) ≤ instanceCount g)%nat →
       g_stuck st' = false
       ∧ (length (g_buf st') + length (g_errs st')
          = length (g_buf st) + length (g_errs st)
            + sum_list (length <$> insts))%nat).
Proof.
  induction dbs as [|db dbs IH]; intros idx toks insts st Hl1 Hl2 Hat Hp.
  - destruct toks, insts; try done. simpl. rewrite app_nil_r.
    split; [done|]. split; [done|]. split; [lia|].
    intros Hstuck _. split; [done|lia].
  - destruct toks as [|tok toks], insts as [|instances insts]; try done.
    simpl in Hl1, Hl2. simpl. rewrite Hp.
    change (list_fmap _ _ length insts) with (length <$> insts).
    destruct (Hat 0%nat) as [Htok Hinst]; [simpl; lia|].
    rewrite Nat.add_0_r in Htok, Hinst. simpl in Htok, Hinst. rewrite Hinst.
    destruct (tasks_done c settings (instanceCount g) (dbTokens g) idx db tok
                instances Htok st Hp) as (Hp1 & Hc1 & _ & Hb1 & Hok1).
    set (st1 := foldl _ st instances) in *.
    destruct (IH (S idx) toks insts st1) as (Hp' & Hc' & Hb' & Hok');
      [lia|lia| |done|].
    { intros k Hk. destruct (Hat (S k)) as [? ?]; [simpl; lia|].
      replace (S idx + k)%nat with (idx + S k)%nat by lia. by split. }
    split; [done|]. split; [by rewrite Hc', Hc1, <- app_assoc|].
    split; [lia|].
    intros Hstuck Hcap.
    destruct (Hok1 Hstuck) as [Hst1 Hlen1]; [lia|].
    destruct (Hok' Hst1) as [Hst' Hlen']; [lia|].
    split; [done|lia].
Qed.

Lemma drain_enough (n : nat) :
  ∀ buf acc, (n ≤ length buf)%nat → is_Some (drain n buf acc).
Proof.
  induction n as [|n IH]; intros buf acc Hlen; simpl; [by eexists|].
  destruct buf as [|ret buf]; simpl in Hlen; [lia|]. apply IH. lia.
Qed.

Lemma in_inspect_calls (settings : Settings) (e : Call) :
  ∀ dbs toks insts,
    e ∈ inspect_calls settings dbs toks insts ↔
    ∃ k db tok instances inst,
      dbs !! k = Some db ∧ toks !! k = Some tok ∧ insts !! k = Some instances
      ∧ inst ∈ instances
      ∧ e = Inspect (getInstanceHttpUrl settings db inst) tok (Region inst) false.
Proof.
  induction dbs as [|db dbs IH]; intros toks insts.
  { simpl. split; [by intros ?%elem_of_nil|by intros (k & ? & ? & ? & ? & ? & _)]. }
  destruct toks as [|tok toks].
  { simpl. split; [by intros ?%elem_of_nil|by intros (k & ? & ? & ? & ? & _ & ? & _)]. }
  destruct insts as [|instances insts].
  { simpl. split; [by intros ?%elem_of_nil|by intros (k & ? & ? & ? & ? & _ & _ & ? & _)]. }
  simpl. rewrite elem_of_app, IH, list_elem_of_fmap. split.
  - intros [(inst & -> & Hin)|(k & db' & tok' & is' & inst & ? & ? & ? & ? & ->)].
    + by exists 0%nat, db, tok, instances, inst.
    + by exists (S k), db', tok', is', inst.
  - intros ([|k] & db' & tok' & is' & inst & Hd & Ht & Hi & Hin & ->);
      simpl in Hd, Ht, Hi.
    + injection Hd as <-. injection Ht as <-. injection Hi as <-.
      left. by exists inst.
    + right. by exists k, db', tok', is', inst.
Qed.

(** ** The whole command *)

(** What a run looks like once the first loop is through. *)
Lemma accountShowCmd_gathered (c : Cloud) settings databases calls g :
  cloud_ReadSettings c = inl settings →
  cloud_client c = None →
  Databases_List c = inl databases →
  gather c 0 databases
    {| numLocations := 0; dbTokens := []; dbInstances := [];
       instanceCount := 0 |} = (calls, inl g) →
  ∃ toks insts st,
    st = launch c settings g 0 databases no_group
    ∧ length toks = length databases ∧ length insts = length databases
    ∧ (∀ k db, databases !! k = Some db →
         ∃ tok instances,
           toks !! k = Some tok ∧ insts !! k = Some instances
           ∧ Databases_Token c k (Name db) "1d" true = inl tok
           ∧ Instances_List c k (Name db) = inl instances)
    ∧ numLocations g = total_regions databases
    ∧ g_calls st = inspect_calls settings databases toks insts
    ∧ (length (g_buf st) + length (g_errs st))%nat = instanceCount g
    ∧ ((∃ err, err ∈ g_errs st
              ∧ accountShowCmd c =
                  ([ReadSettingsCall; NewClient; ListDatabases] ++ calls
                   ++ g_calls st, Failed err))
       ∨ (g_errs st = []
          ∧ ∃ inspectRet,
              accountShowCmd c =
                ([ReadSettingsCall; NewClient; ListDatabases] ++ calls
                 ++ g_calls st
                 ++ [PrintText ("You are currently on "
                                +:+ internal_Emph "starter" +:+ " plan." +:+ LF);
                     PrintText LF;
                     usage_table inspectRet (length databases)
                       (total_regions databases)],
                 Nil))).
Proof.
  intros Hs Hc Hd Hg.
  destruct (gather_done c databases _ _ _ _ Hg)
    as (toks & insts & Htoks & Hinsts & Hl1 & Hl2 & Hk & Hcount & Hloc & _ & _).
  simpl in Htoks, Hinsts, Hcount, Hloc.
  destruct (launch_done c settings g databases 0 toks insts no_group Hl1 Hl2)
    as (Hp & Hcalls & _ & Hok); [|done|].
  { intros k _. by rewrite Htoks, Hinsts. }
  destruct Hok as [Hstuck Hlen]; [done|simpl; lia|].
  simpl in Hcalls, Hlen.
  set (st := launch c settings g 0 databases no_group) in *.
  exists toks, insts, st.
  split; [done|].
  split; [done|]. split; [done|]. split; [done|]. split; [done|].
  split; [done|]. split; [lia|].
  unfold accountShowCmd. rewrite Hs, Hc, Hd, Hg. fold st.
  rewrite Hp, Hstuck.
  destruct (g_errs st) as [|err errs] eqn:He.
  - right. split; [done|].
    destruct (drain_enough (instanceCount g) (g_buf st) InspectInfo_zero)
      as [inspectRet Hdr]; [simpl in Hlen; lia|].
    rewrite Hdr, Hloc. exists inspectRet.
    by rewrite <- !app_assoc.
  - left. eexists. split; [|by rewrite <- !app_assoc].
    destruct ((err :: errs) !! _) as [e|] eqn:Hpick; simpl.
    + by eapply list_elem_of_lookup_2.
    + apply list_elem_of_here.
Qed.




Lemma inspect_calls_no_print (settings : Settings) dbs toks insts :
  Forall (λ e, is_print e = false) (inspect_calls settings dbs toks insts).
Proof.
  apply Forall_forall. intros e He.
  apply in_inspect_calls in He as (k & db & tok & is' & inst & _ & _ & _ & _ & ->).
  done.
Qed.

(** X13: the command never hangs and never indexes out of range. The
    result channel is made with room for one value per instance, one
    goroutine is started per instance, so no send waits; the last loop
    receives as many values as were sent; and [dbInstances[idx]] and
    [dbTokens[idx]] exist for every database, the first loop having added
    one entry per database before any goroutine was started. *)
Theorem accountShowCmd_never_stuck (c : Cloud) :
  (accountShowCmd c).2 ≠ Deadlock ∧ (accountShowCmd c).2 ≠ IndexPanic.
Proof.
  destruct (cloud_ReadSettings c) as [settings|err] eqn:Hs.
  2:{ unfold accountShowCmd. by rewrite Hs. }
  destruct (cloud_client c) as [err|] eqn:Hc.
  { unfold accountShowCmd. by rewrite Hs, Hc. }
  destruct (Databases_List c) as [databases|err] eqn:Hd.
  2:{ unfold accountShowCmd. by rewrite Hs, Hc, Hd. }
  destruct (gather c 0 databases
              {| numLocations := 0; dbTokens := []; dbInstances := [];
                 instanceCount := 0 |}) as [calls [g|err]] eqn:Hg.
  2:{ unfold accountShowCmd. by rewrite Hs, Hc, Hd, Hg. }
  destruct (accountShowCmd_gathered c settings databases calls g Hs Hc Hd Hg)
    as (toks & insts & st & _ & _ & _ & _ & _ & _ & _
        & [(err & _ & ->)|(_ & inspectRet & ->)]); done.
Qed.

(** X14: every inspection the command makes is the inspection of an
    instance of one of the account's databases, at the URL of that
    instance, for its region, without details, and with the token that
    was obtained for that very database (a read-only token with
    expiration [1d]); and no inspection is made unless the instances and
    a token were obtained for every database. *)
Theorem inspections_use_own_token (c : Cloud) (url tok region : string)
    (detailed : bool) :
  Inspect url tok region detailed ∈ (accountShowCmd c).1 →
  detailed = false
  ∧ ∃ settings databases,
      cloud_ReadSettings c = inl settings
      ∧ Databases_List c = inl databases
      ∧ (∃ k db instances inst,
            databases !! k = Some db
            ∧ Instances_List c k (Name db) = inl instances
            ∧ inst ∈ instances
            ∧ Databases_Token c k (Name db) "1d" true = inl tok
            ∧ region = Region inst
            ∧ url = getInstanceHttpUrl settings db inst)
      ∧ (∀ k db, databases !! k = Some db →
           (∃ t, Databases_Token c k (Name db) "1d" true = inl t)
           ∧ (∃ l, Instances_List c k (Name db) = inl l)).
Proof.
  intros Hin.
  destruct (cloud_ReadSettings c) as [settings|err] eqn:Hs.
  2:{ unfold accountShowCmd in Hin. rewrite Hs in Hin.
      apply list_elem_of_singleton in Hin. discriminate. }
  destruct (cloud_client c) as [err|] eqn:Hc.
  { unfold accountShowCmd in Hin. rewrite Hs, Hc in Hin. simpl in Hin.
    repeat (apply elem_of_cons in Hin as [Hin|Hin]; [discriminate|]).
    by apply elem_of_nil in Hin. }
  destruct (Databases_List c) as [databases|err] eqn:Hd.
  2:{ unfold accountShowCmd in Hin. rewrite Hs, Hc, Hd in Hin. simpl in Hin.
      repeat (apply elem_of_cons in Hin as [Hin|Hin]; [discriminate|]).
      by apply elem_of_nil in Hin. }
  destruct (gather c 0 databases
              {| numLocations := 0; dbTokens := []; dbInstances := [];
                 instanceCount := 0 |}) as [calls [g|err]] eqn:Hg.
  2:{ unfold accountShowCmd in Hin. rewrite Hs, Hc, Hd, Hg in Hin.
      simpl in Hin.
      repeat (apply elem_of_cons in Hin as [Hin|Hin]; [discriminate|]).
      by apply gather_failed in Hg as (_ & _ & Hni); apply Hni in Hin. }
  pose proof (gather_done c databases _ _ _ _ Hg)
    as (_ & _ & _ & _ & _ & _ & _ & _ & _ & _ & Hni).
  destruct (accountShowCmd_gathered c settings databases calls g Hs Hc Hd Hg)
    as (toks & insts & st & _ & Hl1 & Hl2 & Hk & _ & Hcalls & _ & Hrun).
  assert (Inspect url tok region detailed
            ∈ inspect_calls settings databases toks insts) as Hcall.
  { rewrite <- Hcalls.
    destruct Hrun as [(err & _ & Hrun)|(_ & inspectRet & Hrun)];
      rewrite Hrun in Hin; simpl in Hin;
      repeat (apply elem_of_cons in Hin as [Hin|Hin]; [discriminate|]);
      (apply elem_of_app in Hin as [Hin|Hin]; [by apply Hni in Hin|]);
      [done|].
    apply elem_of_app in Hin as [Hin|Hin]; [done|].
    repeat (apply elem_of_cons in Hin as [Hin|Hin]; [discriminate|]).
    by apply elem_of_nil in Hin. }
  apply in_inspect_calls
    in Hcall as (k & db & tok' & instances & inst & Hdb & Htok & Hinst & Hi & Heq).
  injection Heq as -> -> -> ->. split; [done|].
  exists settings, databases. split; [done|]. split; [done|]. split.
  - destruct (Hk k db Hdb) as (t & l & Ht & Hl & HT & HL).
    exists k, db, instances, inst.
    assert (t = tok') as -> by congruence.
    assert (l = instances) as -> by congruence. done.
  - intros j db' Hdb'. destruct (Hk j db' Hdb') as (t & l & _ & _ & HT & HL).
    eauto.
Qed.

(** X15: when the command returns nil, it has printed, last of all and
    nowhere before, the plan line, an empty line and the usage table; the
    table's [databases] row shows the number of databases listed and its
    [locations] row the sum, over the databases, of the number of their
    regions; the limits are the fixed ones. *)
Theorem usage_table_counts (c : Cloud) :
  (accountShowCmd c).2 = Nil →
  ∃ databases calls inspectRet,
    Databases_List c = inl databases
    ∧ (accountShowCmd c).1 =
        calls
        ++ [PrintText ("You are currently on " +:+ internal_Emph "starter"
                       +:+ " plan." +:+ LF);
            PrintText LF;
            PrintTable ["RESOURCE"; "USED"; "MAX"]
              [ [Text "storage"; Text (PrintTotal inspectRet);
                 Text (humanize_IBytes 8589934592)];
                [Text "rows read"; Number (RowsReadCount inspectRet);
                 Text "1000000000"];
                [Text "databases"; Number (Z.of_nat (length databases));
                 Text "3"];
                [Text "locations";
                 Number (Z.of_nat (sum_list ((λ db, length (Regions db))
                                               <$> databases)));
                 Text "3"] ] ]
    ∧ Forall (λ e, is_print e = false) calls.
Proof.
  intros Hnil.
  destruct (cloud_ReadSettings c) as [settings|err] eqn:Hs.
  2:{ unfold accountShowCmd in Hnil. by rewrite Hs in Hnil. }
  destruct (cloud_client c) as [err|] eqn:Hc.
  { unfold accountShowCmd in Hnil. by rewrite Hs, Hc in Hnil. }
  destruct (Databases_List c) as [databases|err] eqn:Hd.
  2:{ unfold accountShowCmd in Hnil. by rewrite Hs, Hc, Hd in Hnil. }
  destruct (gather c 0 databases
              {| numLocations := 0; dbTokens := []; dbInstances := [];
                 instanceCount := 0 |}) as [calls [g|err]] eqn:Hg.
  2:{ unfold accountShowCmd in Hnil. by rewrite Hs, Hc, Hd, Hg in Hnil. }
  pose proof (gather_done c databases _ _ _ _ Hg)
    as (_ & _ & _ & _ & _ & _ & _ & _ & _ & Hpr & _).
  destruct (accountShowCmd_gathered c settings databases calls g Hs Hc Hd Hg)
    as (toks & insts & st & _ & _ & _ & _ & _ & Hcalls & _
        & [(err & _ & Hrun)|(_ & inspectRet & Hrun)]).
  { by rewrite Hrun in Hnil. }
  exists databases,
    ([ReadSettingsCall; NewClient; ListDatabases] ++ calls ++ g_calls st),
    inspectRet.
  split; [done|]. split.
  - rewrite Hrun. simpl. by rewrite <- !app_assoc.
  - repeat (apply Forall_app; split); [by repeat constructor|done|].
    rewrite Hcalls. apply inspect_calls_no_print.
Qed.


Lemma filter_all {A} (P : A → Prop) `{∀ x, Decision (P x)} (l : list A) :
  Forall P l → filter P l = l.
Proof.
  induction 1 as [|x l Hx _ IH]; [done|].
  by rewrite filter_cons_True, IH.
Qed.

Lemma filter_none {A} (P : A → Prop) `{∀ x, Decision (P x)} (l : list A) :
  Forall (λ x, ¬ P x) l → filter P l = [].
Proof.
  induction 1 as [|x l Hx _ IH]; [done|].
  by rewrite filter_cons_False, IH.
Qed.

Lemma inspect_calls_length (settings : Settings) :
  ∀ dbs toks insts,
    length toks = length dbs → length insts = length dbs →
    length (inspect_calls settings dbs toks insts) = sum_list (length <$> insts).
Proof.
  induction dbs as [|db dbs IH]; intros [|tok toks] [|instances insts] H1 H2;
    simpl in *; try done.
  rewrite length_app, length_fmap, IH by lia. done.
Qed.

(** X17: when the settings are read, the client is made, the databases
    are listed and the instances and a token are obtained for each of
    them, the command inspects every instance of every database, each
    once: the inspections made are, up to their order, one per instance
    and database, and their number is the total number of instances. *)
Theorem every_instance_inspected (c : Cloud) (settings : Settings)
    (databases : list Database) :
  cloud_ReadSettings c = inl settings →
  cloud_client c = None →
  Databases_List c = inl databases →
  (∀ k db, databases !! k = Some db →
     (∃ t, Databases_Token c k (Name db) "1d" true = inl t)
     ∧ (∃ l, Instances_List c k (Name db) = inl l)) →
  ∃ toks insts,
    length toks = length databases ∧ length insts = length databases
    ∧ (∀ k db, databases !! k = Some db →
         ∃ tok instances,
           toks !! k = Some tok ∧ insts !! k = Some instances
           ∧ Databases_Token c k (Name db) "1d" true = inl tok
           ∧ Instances_List c k (Name db) = inl instances)
    ∧ filter (λ e, is_inspect e = true) (accountShowCmd c).1
        ≡ₚ inspect_calls settings databases toks insts
    ∧ length (filter (λ e, is_inspect e = true) (accountShowCmd c).1)
        = sum_list (length <$> insts).
Proof.
  intros Hs Hc Hd Hall.
  destruct (gather c 0 databases
              {| numLocations := 0; dbTokens := []; dbInstances := [];
                 instanceCount := 0 |}) as [calls [g|err]] eqn:Hg.
  2:{ apply gather_failed in Hg as ((k & db & Hdb & Hor) & _).
      destruct (Hall k db Hdb) as [[t Ht] [l Hl]]. simpl in Hor.
      destruct Hor; congruence. }
  pose proof (gather_done c databases _ _ _ _ Hg)
    as (_ & _ & _ & _ & _ & _ & _ & _ & _ & _ & Hni).
  destruct (accountShowCmd_gathered c settings databases calls g Hs Hc Hd Hg)
    as (toks & insts & st & _ & Hl1 & Hl2 & Hk & _ & Hcalls & _ & Hrun).
  exists toks, insts. split; [done|]. split; [done|]. split; [done|].
  assert (filter (λ e, is_inspect e = true) calls = []) as Hf1.
  { apply filter_none, Forall_forall. intros e He Hi.
    destruct e; try discriminate. by apply Hni in He. }
  assert (filter (λ e, is_inspect e = true) (g_calls st)
          = inspect_calls settings databases toks insts) as Hf2.
  { rewrite Hcalls. apply filter_all, Forall_forall. intros e He.
    by apply in_inspect_calls
      in He as (k & db & tok & is' & inst & _ & _ & _ & _ & ->). }
  assert (filter (λ e, is_inspect e = true) (accountShowCmd c).1
          = inspect_calls settings databases toks insts) as Heq.
  { destruct Hrun as [(err & _ & ->)|(_ & inspectRet & ->)];
      cbn [fst]; rewrite !filter_app, Hf1, Hf2; simpl;
      rewrite ?app_nil_r; done. }
  split; [by rewrite Heq|].
  rewrite Heq. by apply inspect_calls_length.
Qed.

End AccountShowProofs.

Lemma inspections_use_own_token_witness :
  Inspect "https://i3-db2" "tok-db2" "ams" false
    ∈ (accountShowCmd sample_cloud).1
  ∧ ∃ settings databases,
      cloud_ReadSettings sample_cloud = inl settings
      ∧ Databases_List sample_cloud = inl databases
      ∧ (∃ k db instances inst,
            databases !! k = Some db
            ∧ Instances_List sample_cloud k (Name db) = inl instances
            ∧ inst ∈ instances
            ∧ Databases_Token sample_cloud k (Name db) "1d" true = inl "tok-db2"
            ∧ "ams" = Region inst
            ∧ "https://i3-db2" = getInstanceHttpUrl settings db inst)
      ∧ (∀ k db, databases !! k = Some db →
           (∃ t, Databases_Token sample_cloud k (Name db) "1d" true = inl t)
           ∧ (∃ l, Instances_List sample_cloud k (Name db) = inl l)).
Proof.
  assert (Inspect "https://i3-db2" "tok-db2" "ams" false
            ∈ (accountShowCmd sample_cloud).1) as Hin.
  { vm_compute. repeat first [apply list_elem_of_here | apply list_elem_of_further]. }
  split; [exact Hin|].
  exact (proj2 (inspections_use_own_token sample_cloud _ _ _ _ Hin)).
Defined.

Lemma usage_table_counts_witness :
  (accountShowCmd sample_cloud).2 = Nil
  ∧ ∃ databases calls inspectRet,
      Databases_List sample_cloud = inl databases
      ∧ (accountShowCmd sample_cloud).1 =
          calls
          ++ [PrintText ("You are currently on " +:+ internal_Emph "starter"
                         +:+ " plan." +:+ LF);
              PrintText LF;
              PrintTable ["RESOURCE"; "USED"; "MAX"]
                [ [Text "storage"; Text (PrintTotal inspectRet);
                   Text (humanize_IBytes 8589934592)];
                  [Text "rows read"; Number (RowsReadCount inspectRet);
                   Text "1000000000"];
                  [Text "databases"; Number (Z.of_nat (length databases));
                   Text "3"];
                  [Text "locations";
                   Number (Z.of_nat (sum_list ((λ db, length (Regions db))
                                                 <$> databases)));
                   Text "3"] ] ]
      ∧ Forall (λ e, is_print e = false) calls.
Proof.
  split; [reflexivity|].
  apply (usage_table_counts sample_cloud). reflexivity.
Defined.


Lemma every_instance_inspected_witness :
  ∃ toks insts,
    length toks = 2%nat ∧ length insts = 2%nat
    ∧ (∀ k db,
         [("db1", ["ams"; "fra"]); ("db2", ["ams"])] !! k = Some db →
         ∃ tok instances,
           toks !! k = Some tok ∧ insts !! k = Some instances
           ∧ Databases_Token sample_cloud k (Name db) "1d" true = inl tok
           ∧ Instances_List sample_cloud k (Name db) = inl instances)
    ∧ filter (λ e, is_inspect e = true) (accountShowCmd sample_cloud).1
        ≡ₚ inspect_calls {| token := "t" |}
             [("db1", ["ams"; "fra"]); ("db2", ["ams"])] toks insts
    ∧ length (filter (λ e, is_inspect e = true) (accountShowCmd sample_cloud).1)
        = sum_list (length <$> insts).
Proof.
  apply (every_instance_inspected sample_cloud {| token := "t" |}
           [("db1", ["ams"; "fra"]); ("db2", ["ams"])]);
    [reflexivity|reflexivity|reflexivity|].
  intros k db Hdb. split; eexists; reflexivity.
Defined.
